(** * codahale/metrics: counters, gauges and windowed histograms

    A shallow embedding of the Go package [metrics] (the registry of
    counters, gauges, batch initializers and histograms) and of the older
    variant of the same package that has no batch initializers.

    Go's package-level variables ([counters], [gauges], [inits],
    [histograms]) become the fields of one [State] record that every
    operation takes and returns.  The mutexes [cm], [gm], [hm] and the
    per-histogram [rw] only serialise callers; each operation below is the
    critical section it protects, run as one step. *)

From Stdlib Require Import ZArith QArith Lia.
From stdpp Require Import base option list numbers strings gmap fin_maps.

Local Open Scope Z_scope.
#[local] Set Warnings "-clear-no-such-hyp".

(** ** Machine integers and floats *)

(** [uint64] arithmetic wraps around modulo 2^64. *)
Definition uint64_modulus : Z := 2 ^ 64.

Definition is_uint64 (x : Z) : Prop := 0 <= x < uint64_modulus.

Definition uint64_add (a b : Z) : Z := (a + b) mod uint64_modulus.

(** Gauge values are [float64].  The registry stores and returns them and
    never computes with them; the one conversion it performs is
    [float64(int64)] in [valueAt].  The conversion is monotone (IEEE 754
    round-to-nearest), which is all that the ordering of quantile gauges
    needs. *)
Class Float64 := {
  float64 : Type;
  float64_of_int64 : Z → float64;
  float64_le : float64 → float64 → Prop;
  float64_of_int64_mono :
    ∀ a b : Z, a <= b → float64_le (float64_of_int64 a) (float64_of_int64 b)
}.

(** An idealised instance in which every [int64] converts exactly. *)
Definition exact_float64 : Float64 :=
  {| float64 := Z;
     float64_of_int64 := λ z, z;
     float64_le := Z.le;
     float64_of_int64_mono := λ a b H, H |}.

(** ** The package [github.com/codahale/hdrhistogram/hdr]

    The package is an import of the repository; its code is not part of it.
    What the registry relies on is taken from the specification. *)

(** Modelled from the spec: the bucket resolution of a bucketed histogram
    ("controlled by the configured significant-figures precision").  The
    quantization formula is not given, so it is a parameter: the boundary
    of the bucket that a value falls into, for a given precision. *)
Class Quantizer := bucketBoundary : Z → Z → Z.

(** Unit resolution: every value is its own bucket.  With three significant
    figures this is what happens to values below 1000. *)
Definition unit_resolution : Quantizer := λ _ v, v.

Module hdr.

(** Modelled from the spec: the only failure of the package, "RangeError",
    raised for a value outside [min,max]. *)
Inductive error : Type :=
| RangeError (v : Z).

(** Modelled from the spec: the Bucketed Histogram, "a fixed-range,
    fixed-precision approximate distribution accumulator": a numeric range,
    a precision, and a count per bucket boundary. *)
Record Histogram : Type := mkHistogram {
  lowest : Z;
  highest : Z;
  sigfigs : Z;
  counts : gmap Z Z
}.

(** Modelled from the spec: a new bucket set is empty. *)
Definition New (minValue maxValue : Z) (sigfigs : Z) : Histogram :=
  mkHistogram minValue maxValue sigfigs ∅.

(** Modelled from the spec: the count of a bucket, [0] for a bucket that
    nothing was recorded into. *)
Definition countAt (b : Z) (c : gmap Z Z) : Z := default 0 (c !! b).

(** Modelled from the spec: [RecordValue(v)] "validates v ∈ [min,max];
    fails with a RangeError if not (value is dropped ...); otherwise
    increments the current bucket set". *)
Definition RecordValue `{Quantizer} (v : Z) (h : Histogram)
  : option error * Histogram :=
  if bool_decide (lowest h <= v ∧ v <= highest h) then
    let b := bucketBoundary (sigfigs h) v in
    (None,
     mkHistogram (lowest h) (highest h) (sigfigs h)
                 (<[b := countAt b (counts h) + 1]> (counts h)))
  else (Some (RangeError v), h).

(** Modelled from the spec: the number of recorded values, the
    denominator of the "cumulative count fraction". *)
Definition TotalCount (h : Histogram) : Z :=
  map_fold (λ _ c acc, c + acc) 0 (counts h).

(** Modelled from the spec: the cumulative count at boundary [b], the
    number of recorded values in buckets up to and including [b]. *)
Definition cumulative (b : Z) (h : Histogram) : Z :=
  map_fold (λ k c acc, if bool_decide (k <= b) then c + acc else acc) 0
           (counts h).

(** Modelled from the spec: "the cumulative count fraction is ≥ q/100" at
    boundary [b], written without the division. *)
Definition reaches (q : Q) (h : Histogram) (b : Z) : bool :=
  Qle_bool (q * inject_Z (TotalCount h)) (inject_Z (100 * cumulative b h)).

(** Modelled from the spec: "the smallest" of a list of boundaries.  The
    spec does not say what is returned when there is none; [0] here. *)
Definition smallest (bs : list Z) : Z :=
  match bs with
  | [] => 0
  | b :: bs' => foldr Z.min b bs'
  end.

(** Modelled from the spec: the "recorded bucket boundaries", those that
    a value was recorded into. *)
Definition boundaries (h : Histogram) : list Z := (map_to_list (counts h)).*1.

(** Modelled from the spec: [ValueAtQuantile(q)] "returns the smallest
    recorded bucket boundary such that the cumulative count fraction is
    ≥ q/100".  The quantile [q] is a [float64] in the code and an exact
    rational here. *)
Definition ValueAtQuantile (h : Histogram) (q : Q) : Z :=
  smallest (filter (λ b, reaches q h b = true) (boundaries h)).

(** Modelled from the spec: "combines" two bucket sets, adding their
    counts bucket by bucket. *)
Definition addCounts (c1 c2 : gmap Z Z) : gmap Z Z :=
  union_with (λ a b, Some (a + b)) c1 c2.

(** Modelled from the spec: the Windowed Histogram, "one current bucket set
    being written to, plus an ordered, fixed-length ring of the N most
    recently rotated bucket sets".  The ring is kept newest first. *)
Record WindowedHistogram : Type := mkWindowedHistogram {
  Current : Histogram;
  window : list Histogram;
  capacity : nat
}.

Definition NewWindowedHistogram (n : nat) (minValue maxValue : Z) (sigfigs : Z)
  : WindowedHistogram :=
  mkWindowedHistogram (New minValue maxValue sigfigs) [] n.

(** Modelled from the spec: rotation "pushes the current bucket set onto
    the window ring, evicts the oldest slice once the ring exceeds its
    fixed capacity ..., and starts a fresh empty current bucket set". *)
Definition Rotate (w : WindowedHistogram) : WindowedHistogram :=
  let c := Current w in
  mkWindowedHistogram (New (lowest c) (highest c) (sigfigs c))
                      (take (capacity w) (c :: window w))
                      (capacity w).

(** Modelled from the spec: merge "combines the current bucket set with
    every retained window slice into one consolidated bucket-count
    structure". *)
Definition Merge (w : WindowedHistogram) : Histogram :=
  let c := Current w in
  mkHistogram (lowest c) (highest c) (sigfigs c)
              (foldr (λ s acc, addCounts (counts s) acc) (counts c) (window w)).

(** Every stored count is positive: buckets enter the map when a value is
    recorded into them. *)
Definition wf (h : Histogram) : Prop :=
  ∀ b c, counts h !! b = Some c → 0 < c.

Definition windowed_wf (w : WindowedHistogram) : Prop :=
  wf (Current w) ∧ Forall wf (window w).

(** The range and precision that a windowed histogram was made with. *)
Definition has_range (minValue maxValue sigfigs : Z) (w : WindowedHistogram)
  : Prop :=
  lowest (Current w) = minValue ∧ highest (Current w) = maxValue ∧
  hdr.sigfigs (Current w) = sigfigs.

End hdr.

(** ** Shared vocabulary of the two variants of the package *)

(** A [*Histogram] is an address in the store of histogram objects. *)
Abbreviation loc := positive (only parsing).

(** The key of a batch of gauges is an [interface{}]: a dynamic type with a
    comparable value.  Strings are what the package itself uses. *)
Inductive Key : Type :=
| KString (s : string)
| KInt (z : Z).

#[global] Instance Key_eq_dec : EqDecision Key.
Proof. solve_decision. Defined.

#[global] Instance Key_countable : Countable Key.
Proof.
  refine (inj_countable'
            (λ k, match k with KString s => inl s | KInt z => inr z end)
            (λ x, match x with inl s => KString s | inr z => KInt z end) _).
  by intros [].
Defined.

(** A Go call either returns or panics. *)
Inductive outcome (A : Type) : Type :=
| Ok (a : A)
| Panic (msg : string).
Arguments Ok {A} a.
Arguments Panic {A} msg.

(** [c := make(map...); for n, v := range entries { c[n] = v }]: the copy
    loop of the snapshots, over the entries in the order [range] yields
    them. *)
Definition copy_entries {V : Type} (es : list (string * V)) : gmap string V :=
  foldl (λ c e, <[e.1 := e.2]> c) ∅ es.

(** The names of the six quantile gauges of a histogram. *)
Definition quantile_names (name : string) : list string :=
  [name +:+ ".P50"; name +:+ ".P75"; name +:+ ".P90";
   name +:+ ".P95"; name +:+ ".P99"; name +:+ ".P999"].

(** The quantiles they report, in the same order. *)
Definition quantiles : list Q := [50; 75; 90; 95; 99; 99.9]%Q.

(** What the names add to the name of the histogram. *)
Definition quantile_suffixes : list string :=
  [".P50"; ".P75"; ".P90"; ".P95"; ".P99"; ".P999"].

(** The six assignments [g[n+".P50"] = float64(m.ValueAtQuantile(50))]
    ... that the older [Gauges()] makes for the merged histogram [md] of
    a histogram named [n], as a list. *)
Definition quantile_assignments {F64 : Float64} (n : string)
    (md : hdr.Histogram) : list (string * float64) :=
  (λ sq, (n +:+ sq.1, float64_of_int64 (hdr.ValueAtQuantile md sq.2)))
    <$> zip quantile_suffixes quantiles.

(** ** The older variant of the package (no batch initializers) *)

Module legacy.
Section defs.
Context {F64 : Float64} {QZ : Quantizer} {U : Type}.

Record Histogram : Type := mkHist {
  hist : hdr.WindowedHistogram
}.

(** What a gauge function can reach: the histogram objects and the
    caller's own variables [U]. *)
Record World : Type := mkWorld {
  heap : gmap loc Histogram;
  user : U
}.

Record State : Type := mkState {
  counters : gmap string Z;
  gauges : gmap string (World → float64 * World);
  histograms : gmap string loc;
  world : World
}.

Definition Reset (st : State) : State :=
  mkState ∅ ∅ ∅ (world st).

Definition Counters (st : State) : gmap string Z :=
  copy_entries (map_to_list (counters st)).

Definition Histogram_merge (h : Histogram) : hdr.Histogram :=
  hdr.Merge (hist h).

(** [for n, f := range gauges { g[n] = f() }] *)
Definition eval_gauges (go : list (string * (World → float64 * World)))
    (gw : gmap string float64 * World) : gmap string float64 * World :=
  foldl (λ gw e, let '(v, w') := e.2 gw.2 in (<[e.1 := v]> gw.1, w')) gw go.

(** [for n, h := range histograms { m := h.merge(); g[n+".P50"] = ... }] *)
Definition eval_histograms (ho : list (string * loc))
    (gw : gmap string float64 * World) : gmap string float64 * World :=
  foldl (λ gw e,
           match heap gw.2 !! e.2 with
           | Some h =>
               let m := Histogram_merge h in
               let at_q q := float64_of_int64 (hdr.ValueAtQuantile m q) in
               (<[e.1 +:+ ".P999" := at_q 99.9%Q]>
                 (<[e.1 +:+ ".P99" := at_q 99%Q]>
                   (<[e.1 +:+ ".P95" := at_q 95%Q]>
                     (<[e.1 +:+ ".P90" := at_q 90%Q]>
                       (<[e.1 +:+ ".P75" := at_q 75%Q]>
                         (<[e.1 +:+ ".P50" := at_q 50%Q]> gw.1))))),
                gw.2)
           | None => gw
           end) gw ho.

(** [Gauges()], for the orders in which the two [range] loops visit the
    maps. *)
Definition Gauges_in (go : list (string * (World → float64 * World)))
    (ho : list (string * loc)) (w : World) : gmap string float64 * World :=
  eval_histograms ho (eval_gauges go (∅, w)).

Definition Gauges (st : State) : gmap string float64 * State :=
  let '(g, w) := Gauges_in (map_to_list (gauges st))
                           (map_to_list (histograms st)) (world st) in
  (g, mkState (counters st) (gauges st) (histograms st) w).

(** [counters[string(c)] += delta] *)
Definition Counter_AddN (c : string) (delta : Z) (st : State) : State :=
  mkState (<[c := uint64_add (default 0 (counters st !! c)) delta]> (counters st))
          (gauges st) (histograms st) (world st).

Definition Counter_Add (c : string) (st : State) : State :=
  Counter_AddN c 1 st.

Definition Gauge_Set (g : string) (value : float64) (st : State) : State :=
  mkState (counters st) (<[g := λ w, (value, w)]> (gauges st))
          (histograms st) (world st).

Definition Gauge_SetFunc (g : string) (f : World → float64 * World)
    (st : State) : State :=
  mkState (counters st) (<[g := f]> (gauges st)) (histograms st) (world st).

(** [&Histogram{hist: hdr.NewWindowedHistogram(5, minValue, maxValue,
    sigfigs)}] *)
Definition newHist (minValue maxValue : Z) (sigfigs : Z) : Histogram :=
  mkHist (hdr.NewWindowedHistogram 5 minValue maxValue sigfigs).

(** This variant installs no gauges: the quantiles are computed by
    [Gauges()] itself. *)
Definition NewHistogram (name : string) (minValue maxValue : Z) (sigfigs : Z)
    (st : State) : outcome (loc * State) :=
  match histograms st !! name with
  | Some _ => Panic (name +:+ " already exists")
  | None =>
      let l := fresh (dom (heap (world st))) in
      Ok (l,
          mkState (counters st) (gauges st)
                  (<[name := l]> (histograms st))
                  (mkWorld (<[l := newHist minValue maxValue sigfigs]>
                              (heap (world st)))
                           (user (world st))))
  end.

(** [RecordValue] returns nothing here: the error of the bucket set is
    dropped. *)
Definition Histogram_RecordValue (v : Z) (h : Histogram) : Histogram :=
  mkHist (hdr.mkWindowedHistogram
            (hdr.RecordValue v (hdr.Current (hist h))).2
            (hdr.window (hist h)) (hdr.capacity (hist h))).

Definition Histogram_rotate (h : Histogram) : Histogram :=
  mkHist (hdr.Rotate (hist h)).

Definition RecordValue (l : loc) (v : Z) (w : World) : World :=
  mkWorld (alter (Histogram_RecordValue v) l (heap w)) (user w).

Definition rotate (l : loc) (w : World) : World :=
  mkWorld (alter Histogram_rotate l (heap w)) (user w).

(** One tick of the rotation goroutine. *)
Definition tick (st : State) : State :=
  mkState (counters st) (gauges st) (histograms st)
          (foldl (λ w e, rotate e.2 w) (world st)
                 (map_to_list (histograms st))).

End defs.
Arguments World : clear implicits.
Arguments State {F64} U.
End legacy.

(** ** The package [metrics] *)

Section defs.
Context {F64 : Float64} {QZ : Quantizer} {U : Type}.

(** [type Histogram struct { hist *hdr.WindowedHistogram; m *hdr.Histogram;
    rw sync.RWMutex }]; [m] is [nil] until the first merge. *)
Record Histogram : Type := mkHist {
  hist : hdr.WindowedHistogram;
  m : option hdr.Histogram
}.

(** What a callback ([func()] or [func() float64]) can reach while
    [Gauges()] holds [gm] and [hm]: the histogram objects, through their
    handles, and the caller's own variables [U]. *)
Record World : Type := mkWorld {
  heap : gmap loc Histogram;
  user : U
}.

(** [func()] *)
Definition InitFunc : Type := World → World.

(** [func() float64] *)
Definition GaugeFunc : Type := World → float64 * World.

Record State : Type := mkState {
  counters : gmap string Z;
  gauges : gmap string GaugeFunc;
  inits : gmap Key InitFunc;
  histograms : gmap string loc;
  world : World
}.

(** The package-level [var ( ... )] block: four empty maps. *)
Definition initial (w : World) : State := mkState ∅ ∅ ∅ ∅ w.

(** *** Counters *)

(** [counters[string(c)] += delta]; a missing key reads as [0]. *)
Definition Counter_AddN (c : string) (delta : Z) (st : State) : State :=
  mkState (<[c := uint64_add (default 0 (counters st !! c)) delta]> (counters st))
          (gauges st) (inits st) (histograms st) (world st).

Definition Counter_Add (c : string) (st : State) : State :=
  Counter_AddN c 1 st.

Definition Counters (st : State) : gmap string Z :=
  copy_entries (map_to_list (counters st)).

(** *** Gauges *)

Definition Gauge_Set (g : string) (value : float64) (st : State) : State :=
  mkState (counters st) (<[g := λ w, (value, w)]> (gauges st))
          (inits st) (histograms st) (world st).

Definition Gauge_SetFunc (g : string) (f : GaugeFunc) (st : State) : State :=
  mkState (counters st) (<[g := f]> (gauges st))
          (inits st) (histograms st) (world st).

Definition Gauge_SetBatchFunc (g : string) (key : Key) (init : InitFunc)
    (f : GaugeFunc) (st : State) : State :=
  mkState (counters st) (<[g := f]> (gauges st))
          (match inits st !! key with
           | Some _ => inits st
           | None => <[key := init]> (inits st)
           end)
          (histograms st) (world st).

Definition Reset (st : State) : State :=
  mkState ∅ ∅ ∅ ∅ (world st).

(** [for _, init := range inits { init() }], with the log of the keys
    whose initializer was called. *)
Definition run_inits (io : list (Key * InitFunc)) (w : World)
  : World * list Key :=
  foldl (λ wl e, (e.2 wl.1, wl.2 ++ [e.1])) (w, []) io.

(** [for n, f := range gauges { g[n] = f() }] *)
Definition eval_gauges (go : list (string * GaugeFunc))
    (gw : gmap string float64 * World) : gmap string float64 * World :=
  foldl (λ gw e, let '(v, w') := e.2 gw.2 in (<[e.1 := v]> gw.1, w')) gw go.

(** The result of one [Gauges()] call: the snapshot, what the callbacks
    left behind, and which initializers ran. *)
Record Snapshot : Type := mkSnapshot {
  values : gmap string float64;
  after : World;
  called : list Key
}.

(** [Gauges()], for the orders in which the two [range] loops visit the
    maps. *)
Definition Gauges_in (io : list (Key * InitFunc))
    (go : list (string * GaugeFunc)) (w : World) : Snapshot :=
  let '(w1, log) := run_inits io w in
  let '(g, w2) := eval_gauges go (∅, w1) in
  mkSnapshot g w2 log.

(** [Gauges()] with both maps visited in the order of [map_to_list]. *)
Definition Gauges (st : State) : gmap string float64 * State :=
  let s := Gauges_in (map_to_list (inits st)) (map_to_list (gauges st))
                     (world st) in
  (values s,
   mkState (counters st) (gauges st) (inits st) (histograms st) (after s)).

(** *** Histograms *)

Definition Histogram_RecordValue (v : Z) (h : Histogram)
  : option hdr.error * Histogram :=
  let '(e, cur) := hdr.RecordValue v (hdr.Current (hist h)) in
  (e, mkHist (hdr.mkWindowedHistogram cur (hdr.window (hist h))
                                      (hdr.capacity (hist h)))
             (m h)).

Definition Histogram_rotate (h : Histogram) : Histogram :=
  mkHist (hdr.Rotate (hist h)) (m h).

Definition Histogram_merge (h : Histogram) : Histogram :=
  mkHist (hist h) (Some (hdr.Merge (hist h))).

Definition Histogram_valueAt (q : Q) (h : Histogram) : float64 :=
  match m h with
  | None => float64_of_int64 0
  | Some md => float64_of_int64 (hdr.ValueAtQuantile md q)
  end.

(** The same methods through a handle.  Handles come from [NewHistogram]
    only and objects are never freed, so the handle of a call is always
    allocated; at an address that holds nothing the functions below do
    nothing. *)
Definition RecordValue (l : loc) (v : Z) (w : World)
  : option hdr.error * World :=
  match heap w !! l with
  | Some h =>
      let '(e, h') := Histogram_RecordValue v h in
      (e, mkWorld (<[l := h']> (heap w)) (user w))
  | None => (None, w)
  end.

Definition rotate (l : loc) : World → World :=
  λ w, mkWorld (alter Histogram_rotate l (heap w)) (user w).

(** The method value [hist.merge]. *)
Definition merge (l : loc) : InitFunc :=
  λ w, mkWorld (alter Histogram_merge l (heap w)) (user w).

(** The closure [hist.valueAt(q)]. *)
Definition valueAt (l : loc) (q : Q) : GaugeFunc :=
  λ w, (match heap w !! l with
        | Some h => Histogram_valueAt q h
        | None => float64_of_int64 0
        end, w).

(** [&Histogram{hist: hdr.NewWindowedHistogram(5, minValue, maxValue,
    sigfigs)}] *)
Definition newHist (minValue maxValue : Z) (sigfigs : Z) : Histogram :=
  mkHist (hdr.NewWindowedHistogram 5 minValue maxValue sigfigs) None.

Definition NewHistogram (name : string) (minValue maxValue : Z) (sigfigs : Z)
    (st : State) : outcome (loc * State) :=
  match histograms st !! name with
  | Some _ => Panic (name +:+ " already exists")
  | None =>
      let l := fresh (dom (heap (world st))) in
      let hist := newHist minValue maxValue sigfigs in
      let st0 :=
        mkState (counters st) (gauges st) (inits st)
                (<[name := l]> (histograms st))
                (mkWorld (<[l := hist]> (heap (world st)))
                         (user (world st))) in
      let st1 := Gauge_SetBatchFunc (name +:+ ".P50") (KString name)
                   (merge l) (valueAt l 50%Q) st0 in
      let st2 := Gauge_SetBatchFunc (name +:+ ".P75") (KString name)
                   (merge l) (valueAt l 75%Q) st1 in
      let st3 := Gauge_SetBatchFunc (name +:+ ".P90") (KString name)
                   (merge l) (valueAt l 90%Q) st2 in
      let st4 := Gauge_SetBatchFunc (name +:+ ".P95") (KString name)
                   (merge l) (valueAt l 95%Q) st3 in
      let st5 := Gauge_SetBatchFunc (name +:+ ".P99") (KString name)
                   (merge l) (valueAt l 99%Q) st4 in
      let st6 := Gauge_SetBatchFunc (name +:+ ".P999") (KString name)
                   (merge l) (valueAt l 99.9%Q) st5 in
      Ok (l, st6)
  end.

(** One tick of the rotation goroutine:
    [for _, h := range histograms { h.rotate() }]. *)
Definition tick (st : State) : State :=
  mkState (counters st) (gauges st) (inits st) (histograms st)
          (foldl (λ w e, rotate e.2 w) (world st)
                 (map_to_list (histograms st))).

(** *** Histories *)

(** What can happen to one histogram object after its creation. *)
Inductive HOp : Type :=
| HRecordValue (v : Z)
| HRotate
| HMerge.

Definition hstep (h : Histogram) (op : HOp) : Histogram :=
  match op with
  | HRecordValue v => (Histogram_RecordValue v h).2
  | HRotate => Histogram_rotate h
  | HMerge => Histogram_merge h
  end.

Definition hrun (ops : list HOp) (h : Histogram) : Histogram :=
  foldl hstep h ops.

(** The calls of the package, as seen by the registry. *)
Inductive Op : Type :=
| OpAddN (c : string) (delta : Z)
| OpSet (g : string) (value : float64)
| OpSetFunc (g : string) (f : GaugeFunc)
| OpSetBatchFunc (g : string) (key : Key) (init : InitFunc) (f : GaugeFunc)
| OpReset
| OpCounters
| OpGauges
| OpNewHistogram (name : string) (minValue maxValue sigfigs : Z)
| OpRecordValue (h : loc) (v : Z)
| OpTick.

(** One call that returns.  [Gauges()] may visit its maps in any order; a
    [NewHistogram] that panics ends the process and is no step. *)
Inductive step : Op → State → State → Prop :=
| step_AddN c delta st :
    is_uint64 delta →
    step (OpAddN c delta) st (Counter_AddN c delta st)
| step_Set g value st :
    step (OpSet g value) st (Gauge_Set g value st)
| step_SetFunc g f st :
    step (OpSetFunc g f) st (Gauge_SetFunc g f st)
| step_SetBatchFunc g key init f st :
    step (OpSetBatchFunc g key init f) st (Gauge_SetBatchFunc g key init f st)
| step_Reset st :
    step OpReset st (Reset st)
| step_Counters st :
    step OpCounters st st
| step_Gauges io go st :
    io ≡ₚ map_to_list (inits st) →
    go ≡ₚ map_to_list (gauges st) →
    step OpGauges st
         (mkState (counters st) (gauges st) (inits st) (histograms st)
                  (after (Gauges_in io go (world st))))
| step_NewHistogram name minValue maxValue sigfigs st l st' :
    NewHistogram name minValue maxValue sigfigs st = Ok (l, st') →
    step (OpNewHistogram name minValue maxValue sigfigs) st st'
| step_RecordValue h v st :
    step (OpRecordValue h v) st
         (mkState (counters st) (gauges st) (inits st) (histograms st)
                  (RecordValue h v (world st)).2)
| step_Tick st :
    step OpTick st (tick st).

Inductive steps : list Op → State → State → Prop :=
| steps_nil st : steps [] st st
| steps_cons op ops st st' st'' :
    step op st st' → steps ops st' st'' → steps (op :: ops) st st''.

(** The value of a counter in a snapshot, [0] for a missing key. *)
Definition counter_value (c : string) (st : State) : Z :=
  default 0 (Counters st !! c).

(** The same history on a histogram object of the older variant, whose
    [merge] returns the merged histogram and writes nothing. *)
Definition legacy_hstep (h : legacy.Histogram) (op : HOp) : legacy.Histogram :=
  match op with
  | HRecordValue v => legacy.Histogram_RecordValue v h
  | HRotate => legacy.Histogram_rotate h
  | HMerge => h
  end.

Definition legacy_hrun (ops : list HOp) (h : legacy.Histogram)
  : legacy.Histogram :=
  foldl legacy_hstep h ops.

(** The call [op] registers an initializer under the key [k]: a
    [SetBatchFunc] with that key and initializer, or a [NewHistogram] of
    that name. *)
Definition registers (k : Key) (i : InitFunc) (op : Op) : Prop :=
  match op with
  | OpSetBatchFunc _ key init _ => key = k ∧ init = i
  | OpNewHistogram name _ _ _ => k = KString name
  | _ => False
  end.

(** The invariant of a histogram object. *)
Definition Histogram_wf (h : Histogram) : Prop :=
  hdr.windowed_wf (hist h) ∧ ∀ md, m h = Some md → hdr.wf md.

(** Every stored counter is a [uint64]. *)
Definition counters_wf (st : State) : Prop :=
  ∀ c v, counters st !! c = Some v → is_uint64 v.

End defs.
Arguments World : clear implicits.
Arguments InitFunc : clear implicits.
Arguments Op {F64} U.
Arguments GaugeFunc {F64} U.
Arguments State {F64} U.
Arguments Snapshot {F64} U.

(** ** The package [metrics/runtime]: memory statistics as gauges *)

(** The conversions [float64(uint32)] and [float64(uint64)] of the memory
    statistics, which agree on the values of a [uint32]. *)
Class Float64OfUint {F64 : Float64} := float64_of_uint64 : Z → float64.

Module gc.

(** [runtime.MemStats]: the fields that the gauges read. *)
Record MemStats : Type := mkMemStats {
  NumGC : Z;
  PauseTotalNs : Z;
  LastGC : Z;
  Alloc : Z;
  HeapObjects : Z
}.

(** The variables of the package: the Go runtime, of some type [R], and
    [msg.stats] of the one [memStatGauges] that [init] makes. *)
Record Vars (R : Type) : Type := mkVars {
  rt : R;
  stats : MemStats
}.
Arguments mkVars {R} rt stats.
Arguments rt {R} _.
Arguments stats {R} _.

Section defs.
Context {F64 : Float64} {FU : Float64OfUint} {R : Type}.

(** [runtime.ReadMemStats] is the Go runtime's: what it reads off the
    runtime is a parameter. *)
Variable ReadMemStats : R → MemStats.

(** [func (msg *memStatGauges) init()] *)
Definition memStatGauges_init : InitFunc (Vars R) :=
  λ w, mkWorld (heap w) (mkVars (rt (user w)) (ReadMemStats (rt (user w)))).

Definition numGC : GaugeFunc (Vars R) :=
  λ w, (float64_of_uint64 (NumGC (stats (user w))), w).

Definition totalPause : GaugeFunc (Vars R) :=
  λ w, (float64_of_uint64 (PauseTotalNs (stats (user w))), w).

Definition lastPause : GaugeFunc (Vars R) :=
  λ w, (float64_of_uint64 (LastGC (stats (user w))), w).

Definition alloc : GaugeFunc (Vars R) :=
  λ w, (float64_of_uint64 (Alloc (stats (user w))), w).

Definition objects : GaugeFunc (Vars R) :=
  λ w, (float64_of_uint64 (HeapObjects (stats (user w))), w).

(** The five gauges, by name. *)
Definition mem_gauges : list (string * GaugeFunc (Vars R)) :=
  [("Mem.GC.Runs", numGC); ("Mem.GC.TotalPauseTime", totalPause);
   ("Mem.GC.LastPauseTime", lastPause); ("Mem.Alloc", alloc);
   ("Mem.Objects", objects)].

(** [func init()] of the package. *)
Definition init (st : State (Vars R)) : State (Vars R) :=
  let st1 := Gauge_SetBatchFunc "Mem.GC.Runs" (KString "Mem")
               memStatGauges_init numGC st in
  let st2 := Gauge_SetBatchFunc "Mem.GC.TotalPauseTime" (KString "Mem")
               memStatGauges_init totalPause st1 in
  let st3 := Gauge_SetBatchFunc "Mem.GC.LastPauseTime" (KString "Mem")
               memStatGauges_init lastPause st2 in
  let st4 := Gauge_SetBatchFunc "Mem.Alloc" (KString "Mem")
               memStatGauges_init alloc st3 in
  Gauge_SetBatchFunc "Mem.Objects" (KString "Mem")
    memStatGauges_init objects st4.

End defs.
End gc.

(** ** Concrete registries

    The caller's variables are one [nat]; floats are the idealised ones and
    buckets have unit resolution. *)

Module examples.
#[local] Existing Instance exact_float64.
#[local] Existing Instance unit_resolution.

Definition ex_world : World nat := mkWorld ∅ 0%nat.

Definition ex_empty : State nat := initial ex_world.

(** An initializer that counts its own calls, and a gauge that reads the
    count. *)
Definition ex_bump : InitFunc nat := λ w, mkWorld (heap w) (S (user w)).

Definition ex_read : GaugeFunc nat := λ w, (Z.of_nat (user w), w).

(** Two gauges of one batch. *)
Definition ex_batch : State nat :=
  Gauge_SetBatchFunc "b" (KString "K") ex_bump ex_read
    (Gauge_SetBatchFunc "a" (KString "K") ex_bump ex_read ex_empty).


(** A counter one short of wrapping around. *)
Definition ex_full : State nat :=
  Counter_AddN "c" (2 ^ 64 - 1) ex_empty.

(** [metrics.NewHistogram("heyo", 1, 1000, 3)] on the empty registry. *)
Definition ex_heyo : State nat :=
  match NewHistogram "heyo" 1 1000 3 ex_empty with
  | Ok (_, st) => st
  | Panic _ => ex_empty
  end.

(** [for j := 0; j < n; j++ { h.RecordValue(v) }] *)
Fixpoint record_times (n : nat) (l : loc) (v : Z) (w : World nat) : World nat :=
  match n with
  | O => w
  | S n' => record_times n' l v (RecordValue l v w).2
  end.

(** [for i := n; i > 0; i-- { ... h.RecordValue(int64(i)) ... }] *)
Fixpoint record_triangle (n : nat) (l : loc) (w : World nat) : World nat :=
  match n with
  | O => w
  | S n' => record_triangle n' l (record_times n l (Z.of_nat n) w)
  end.

(** The registry of the histogram test: the value [i], [i] times, for [i]
    from 100 down to 1. *)
Definition ex_triangle : State nat :=
  mkState (counters ex_heyo) (gauges ex_heyo) (inits ex_heyo)
          (histograms ex_heyo) (record_triangle 100 1%positive (world ex_heyo)).

(** A few calls after [AddN(0)] on a new counter. *)
Definition ex_later : State nat :=
  Gauge_Set "g" 1
    (Counter_AddN "c" 0 (Counter_AddN "d" 3 (Counter_AddN "c" 0 ex_empty))).

(** The only gauge of a batch, replaced by a constant. *)
Definition ex_replaced : State nat :=
  Gauge_Set "a" 5
    (Gauge_SetBatchFunc "a" (KString "K") ex_bump ex_read ex_empty).

(** The histogram of [ex_triangle], as the store holds it. *)
Definition ex_triangle_hist : Histogram :=
  default (newHist 1 1000 3) (heap (world ex_triangle) !! 1%positive).

(** Two histograms, "a" then "b". *)
Definition ex_a : State nat :=
  match NewHistogram "a" 1 10 1 ex_empty with
  | Ok (_, st) => st
  | Panic _ => ex_empty
  end.

Definition ex_ab : State nat :=
  match NewHistogram "b" 1 20 2 ex_a with
  | Ok (_, st) => st
  | Panic _ => ex_a
  end.

(** The older variant: a histogram "heyo" with the values 3, 3 and 9, a
    gauge "g", and a gauge that has the name of a quantile of "heyo". *)
Definition ex_legacy_empty : legacy.State nat :=
  legacy.mkState ∅ ∅ ∅ (legacy.mkWorld ∅ 0%nat).

Definition ex_legacy : legacy.State nat :=
  let st := match legacy.NewHistogram "heyo" 1 1000 3 ex_legacy_empty with
            | Ok (_, st) => st
            | Panic _ => ex_legacy_empty
            end in
  let st := legacy.Gauge_Set "heyo.P50" 7 (legacy.Gauge_Set "g" 1 st) in
  legacy.mkState (legacy.counters st) (legacy.gauges st) (legacy.histograms st)
    (legacy.RecordValue 1%positive 9
       (legacy.RecordValue 1%positive 3
          (legacy.RecordValue 1%positive 3 (legacy.world st)))).

Definition ex_legacy_hist : legacy.Histogram :=
  default (legacy.newHist 1 1000 3)
          (legacy.heap (legacy.world ex_legacy) !! 1%positive).

(** The memory gauges, with a runtime that is one number. *)
#[local] Instance ex_uint : Float64OfUint := λ z, z.

Definition ex_ReadMemStats (r : nat) : gc.MemStats :=
  gc.mkMemStats (Z.of_nat r) (Z.of_nat r + 1) (Z.of_nat r + 2)
                (Z.of_nat r + 3) (Z.of_nat r + 4).

Definition ex_mem_world : World (gc.Vars nat) :=
  mkWorld ∅ (gc.mkVars 7%nat (gc.mkMemStats 0 0 0 0 0)).

Definition ex_mem : State (gc.Vars nat) :=
  gc.init ex_ReadMemStats (initial ex_mem_world).

End examples.

(** * Facts about the bucketed and windowed histograms *)

Section hdr_facts.
Context {QZ : Quantizer}.
Implicit Types (h : hdr.Histogram) (wh : hdr.WindowedHistogram).
Implicit Types (l : list (Z * Z)) (bs : list Z) (b c v : Z) (q : Q).

(** Sums over the entries of a count map. *)
Lemma TotalCount_entries h :
  hdr.TotalCount h
  = foldr (λ e acc, e.2 + acc) 0 (map_to_list (hdr.counts h)).
Proof.
  unfold hdr.TotalCount. rewrite map_fold_foldr.
  induction (map_to_list (hdr.counts h)) as [|[k c] l IH]; [done|].
  simpl. by rewrite IH.
Qed.

Lemma cumulative_entries b h :
  hdr.cumulative b h
  = foldr (λ e acc, if bool_decide (e.1 <= b) then e.2 + acc else acc) 0
          (map_to_list (hdr.counts h)).
Proof.
  unfold hdr.cumulative. rewrite map_fold_foldr.
  induction (map_to_list (hdr.counts h)) as [|[k c] l IH]; [done|].
  simpl. by rewrite IH.
Qed.

Lemma entries_total_nonneg l :
  Forall (λ e, 0 < e.2) l → 0 <= foldr (λ e acc, e.2 + acc) 0 l.
Proof. induction 1; simpl; lia. Qed.

Lemma entries_total_pos l :
  l ≠ [] → Forall (λ e, 0 < e.2) l → 0 < foldr (λ e acc, e.2 + acc) 0 l.
Proof.
  intros Hne Hall. destruct Hall as [|e l He Hl]; [done|].
  simpl. pose proof (entries_total_nonneg l Hl). lia.
Qed.

Lemma entries_cumulative_all b l :
  Forall (λ e, e.1 <= b) l →
  foldr (λ e acc, if bool_decide (e.1 <= b) then e.2 + acc else acc) 0 l
  = foldr (λ e acc, e.2 + acc) 0 l.
Proof.
  induction 1 as [|e l He Hl IH]; simpl; [done|].
  rewrite bool_decide_true by done. by rewrite IH.
Qed.

Lemma wf_entries h :
  hdr.wf h → Forall (λ e, 0 < e.2) (map_to_list (hdr.counts h)).
Proof.
  intros Hwf. apply Forall_forall. intros [k c] Hin.
  apply elem_of_map_to_list in Hin. simpl. eauto.
Qed.

Lemma TotalCount_nonneg h : hdr.wf h → 0 <= hdr.TotalCount h.
Proof.
  intros Hwf. rewrite TotalCount_entries.
  by apply entries_total_nonneg, wf_entries.
Qed.

Lemma TotalCount_pos h :
  hdr.wf h → hdr.counts h ≠ ∅ → 0 < hdr.TotalCount h.
Proof.
  intros Hwf Hne. rewrite TotalCount_entries.
  apply entries_total_pos; [|by apply wf_entries].
  by rewrite map_to_list_empty_iff.
Qed.

Lemma elem_of_boundaries b h :
  b ∈ hdr.boundaries h ↔ is_Some (hdr.counts h !! b).
Proof.
  unfold hdr.boundaries. rewrite list_elem_of_fmap. split.
  - intros ([k c] & -> & Hin). apply elem_of_map_to_list in Hin. eauto.
  - intros [c Hc]. exists (b, c). split; [done|].
    by apply elem_of_map_to_list.
Qed.

(** The largest boundary of a non-empty list. *)
Lemma largest_exists bs :
  bs ≠ [] → ∃ b, b ∈ bs ∧ ∀ x, x ∈ bs → x <= b.
Proof.
  induction bs as [|a bs IH]; [done|]. intros _.
  destruct bs as [|a' bs'].
  - exists a. split; [left|]. intros x Hx. apply list_elem_of_singleton in Hx. lia.
  - destruct IH as (b & Hb & Hmax); [done|].
    destruct (decide (a <= b)).
    + exists b. split; [by right|]. intros x [->|Hx]%elem_of_cons; auto.
    + exists a. split; [left|]. intros x [->|Hx]%elem_of_cons; [lia|].
      specialize (Hmax x Hx). lia.
Qed.

(** At the largest recorded boundary everything has been counted. *)
Lemma cumulative_largest b h :
  (∀ x, x ∈ hdr.boundaries h → x <= b) →
  hdr.cumulative b h = hdr.TotalCount h.
Proof.
  intros Hmax. rewrite cumulative_entries, TotalCount_entries.
  apply entries_cumulative_all, Forall_forall. intros [k c] Hin. simpl.
  apply Hmax. unfold hdr.boundaries. apply list_elem_of_fmap.
  by exists (k, c).
Qed.

Lemma smallest_elem bs : bs ≠ [] → hdr.smallest bs ∈ bs.
Proof.
  destruct bs as [|a bs]; [done|]. intros _. simpl.
  induction bs as [|x bs IH]; simpl; [left|].
  destruct (Z.min_spec x (foldr Z.min a bs)) as [[_ ->]|[_ ->]].
  - right; left.
  - apply elem_of_cons in IH as [->|IH]; [left|]. by right; right.
Qed.

Lemma smallest_le bs x : x ∈ bs → hdr.smallest bs <= x.
Proof.
  destruct bs as [|a bs]; [by intros ?%elem_of_nil|]. simpl.
  induction bs as [|y bs IH]; simpl.
  - intros ->%list_elem_of_singleton. lia.
  - intros [->|[->|Hx]%elem_of_cons]%elem_of_cons.
    + etrans; [apply Z.le_min_r|]. apply IH. left.
    + apply Z.le_min_l.
    + etrans; [apply Z.le_min_r|]. apply IH. by right.
Qed.

End hdr_facts.

(** * Quantiles of a bucketed histogram *)

Section hdr_quantiles.
Implicit Types (h : hdr.Histogram) (b c : Z) (q : Q).

(** The test of [ValueAtQuantile], with the division written out. *)
Lemma fraction_cross q c T :
  0 < T →
  (q * inject_Z T <= inject_Z (100 * c))%Q
  ↔ (q / 100 <= inject_Z c / inject_Z T)%Q.
Proof.
  intros HT. destruct q as [a p]. destruct T as [|T|T]; try lia.
  unfold Qle, Qdiv, Qmult, Qinv, inject_Z. simpl.
  rewrite ?Z.mul_1_r, ?Pos.mul_1_r, ?Pos2Z.inj_mul. nia.
Qed.

Lemma reaches_fraction q h b :
  0 < hdr.TotalCount h →
  hdr.reaches q h b = true
  ↔ (q / 100 <= inject_Z (hdr.cumulative b h) / inject_Z (hdr.TotalCount h))%Q.
Proof.
  intros HT. unfold hdr.reaches. rewrite Qle_bool_iff.
  by apply fraction_cross.
Qed.

(** A boundary that reaches a quantile reaches every smaller one. *)
Lemma reaches_anti q1 q2 h b :
  0 <= hdr.TotalCount h → (q1 <= q2)%Q →
  hdr.reaches q2 h b = true → hdr.reaches q1 h b = true.
Proof.
  unfold hdr.reaches. rewrite !Qle_bool_iff. intros HT Hq H2.
  eapply Qle_trans; [|exact H2].
  apply Qmult_le_compat_r; [done|].
  change 0%Q with (inject_Z 0). by rewrite <- Zle_Qle.
Qed.

(** The largest recorded boundary reaches every quantile up to 100. *)
Lemma reaches_largest q h b :
  0 <= hdr.TotalCount h → (q <= 100)%Q →
  hdr.cumulative b h = hdr.TotalCount h →
  hdr.reaches q h b = true.
Proof.
  unfold hdr.reaches. rewrite Qle_bool_iff. intros HT Hq ->.
  rewrite inject_Z_mult. change (inject_Z 100) with 100%Q.
  apply Qmult_le_compat_r; [done|].
  change 0%Q with (inject_Z 0). by rewrite <- Zle_Qle.
Qed.

Lemma candidates_nonempty q h :
  hdr.wf h → hdr.counts h ≠ ∅ → (q <= 100)%Q →
  filter (λ b, hdr.reaches q h b = true) (hdr.boundaries h) ≠ [].
Proof.
  intros Hwf Hne Hq.
  destruct (largest_exists (hdr.boundaries h)) as (b & Hb & Hmax).
  { unfold hdr.boundaries. intros Hnil%fmap_nil_inv.
    by apply map_to_list_empty_iff in Hnil. }
  assert (b ∈ filter (λ b, hdr.reaches q h b = true) (hdr.boundaries h))
    as Hin.
  { apply list_elem_of_filter. split; [|done].
    apply reaches_largest; [by apply TotalCount_nonneg|done|].
    by apply cumulative_largest. }
  intros Hnil. rewrite Hnil in Hin. by apply elem_of_nil in Hin.
Qed.

(** What [ValueAtQuantile] returns on a non-empty distribution: a recorded
    boundary, at which the cumulative fraction is at least [q/100], and
    the smallest such. *)
Lemma ValueAtQuantile_smallest q h :
  hdr.wf h → hdr.counts h ≠ ∅ → (q <= 100)%Q →
  let b := hdr.ValueAtQuantile h q in
  is_Some (hdr.counts h !! b) ∧
  (q / 100 <= inject_Z (hdr.cumulative b h) / inject_Z (hdr.TotalCount h))%Q ∧
  ∀ b', is_Some (hdr.counts h !! b') →
        (q / 100
         <= inject_Z (hdr.cumulative b' h) / inject_Z (hdr.TotalCount h))%Q →
        b <= b'.
Proof.
  intros Hwf Hne Hq b.
  pose proof (TotalCount_pos h Hwf Hne) as HT.
  pose proof (smallest_elem _ (candidates_nonempty q h Hwf Hne Hq)) as Hin.
  fold (hdr.ValueAtQuantile h q) in Hin. fold b in Hin.
  apply list_elem_of_filter in Hin as [Hreach Hin].
  split; [by apply elem_of_boundaries|].
  split; [by apply reaches_fraction|].
  intros b' Hb' Hfrac. apply smallest_le, list_elem_of_filter.
  split; [by apply reaches_fraction|by apply elem_of_boundaries].
Qed.

(** With nothing recorded there is no boundary to return. *)
Lemma ValueAtQuantile_empty q h :
  hdr.counts h = ∅ → hdr.ValueAtQuantile h q = 0.
Proof.
  intros He. unfold hdr.ValueAtQuantile, hdr.boundaries.
  by rewrite He, map_to_list_empty.
Qed.

(** Quantiles are non-decreasing in [q]. *)
Lemma ValueAtQuantile_mono q1 q2 h :
  hdr.wf h → (q1 <= q2)%Q → (q2 <= 100)%Q →
  hdr.ValueAtQuantile h q1 <= hdr.ValueAtQuantile h q2.
Proof.
  intros Hwf H12 H2.
  destruct (decide (hdr.counts h = ∅)) as [He|Hne].
  { by rewrite !ValueAtQuantile_empty. }
  pose proof (smallest_elem _ (candidates_nonempty q2 h Hwf Hne H2)) as Hin.
  apply list_elem_of_filter in Hin as [Hreach Hin].
  apply smallest_le, list_elem_of_filter. split; [|done].
  eapply reaches_anti; [by apply TotalCount_nonneg|exact H12|exact Hreach].
Qed.

End hdr_quantiles.

(** * Invariants of histogram objects *)

Section histogram_invariants.
Context {F64 : Float64} {QZ : Quantizer}.
Implicit Types (h : hdr.Histogram) (wh : hdr.WindowedHistogram).
Implicit Types (H : Histogram) (ops : list HOp) (v : Z).

Lemma New_wf lo hi sf : hdr.wf (hdr.New lo hi sf).
Proof. intros b c. simpl. by rewrite lookup_empty. Qed.

Lemma RecordValue_out_of_range v h :
  ¬ (hdr.lowest h <= v ∧ v <= hdr.highest h) →
  hdr.RecordValue v h = (Some (hdr.RangeError v), h).
Proof. intros Hout. unfold hdr.RecordValue. by rewrite bool_decide_false. Qed.

Lemma RecordValue_in_range v h :
  hdr.lowest h <= v ∧ v <= hdr.highest h →
  hdr.RecordValue v h
  = (None,
     hdr.mkHistogram (hdr.lowest h) (hdr.highest h) (hdr.sigfigs h)
       (<[bucketBoundary (hdr.sigfigs h) v
          := hdr.countAt (bucketBoundary (hdr.sigfigs h) v) (hdr.counts h) + 1]>
          (hdr.counts h))).
Proof. intros Hin. unfold hdr.RecordValue. by rewrite bool_decide_true. Qed.

Lemma RecordValue_wf v h : hdr.wf h → hdr.wf (hdr.RecordValue v h).2.
Proof.
  intros Hwf. unfold hdr.RecordValue. case_bool_decide; [|done].
  intros b c. simpl. rewrite lookup_insert. case_decide as Hb.
  - intros [= <-]. unfold hdr.countAt.
    destruct (hdr.counts h !! _) as [x|] eqn:Hx; simpl; [|lia].
    specialize (Hwf _ _ Hx). lia.
  - apply Hwf.
Qed.

Lemma RecordValue_range v h :
  hdr.lowest (hdr.RecordValue v h).2 = hdr.lowest h ∧
  hdr.highest (hdr.RecordValue v h).2 = hdr.highest h ∧
  hdr.sigfigs (hdr.RecordValue v h).2 = hdr.sigfigs h.
Proof. unfold hdr.RecordValue. by case_bool_decide. Qed.

Lemma addCounts_pos (c1 c2 : gmap Z Z) :
  (∀ b x, c1 !! b = Some x → 0 < x) → (∀ b x, c2 !! b = Some x → 0 < x) →
  ∀ b x, hdr.addCounts c1 c2 !! b = Some x → 0 < x.
Proof.
  intros H1 H2 b x. unfold hdr.addCounts. rewrite lookup_union_with.
  destruct (c1 !! b) as [x1|] eqn:E1, (c2 !! b) as [x2|] eqn:E2; simpl;
    intros [= <-]; eauto.
  specialize (H1 _ _ E1). specialize (H2 _ _ E2). lia.
Qed.

Lemma Merge_wf wh : hdr.windowed_wf wh → hdr.wf (hdr.Merge wh).
Proof.
  intros [Hc Hw]. unfold hdr.Merge, hdr.wf. simpl.
  induction Hw as [|s ss Hs Hss IH]; simpl; [exact Hc|].
  by apply addCounts_pos.
Qed.

Lemma Rotate_wf wh : hdr.windowed_wf wh → hdr.windowed_wf (hdr.Rotate wh).
Proof.
  intros [Hc Hw]. split; simpl; [apply New_wf|].
  apply Forall_take. by constructor.
Qed.

Lemma newHist_wf lo hi sf : Histogram_wf (newHist lo hi sf).
Proof.
  split; [|done]. split; simpl; [apply New_wf|constructor].
Qed.

Lemma hstep_wf H op : Histogram_wf H → Histogram_wf (hstep H op).
Proof.
  intros [[Hc Hw] Hm]. destruct op as [v| |]; simpl.
  - unfold Histogram_RecordValue.
    pose proof (RecordValue_wf v _ Hc) as Hc'.
    destruct (hdr.RecordValue v _) as [e cur]. by repeat split.
  - split; [by apply Rotate_wf|done].
  - split; [done|]. intros md [= <-]. by apply Merge_wf.
Qed.

Lemma hrun_wf ops H : Histogram_wf H → Histogram_wf (hrun ops H).
Proof.
  revert H. induction ops as [|op ops IH]; intros H HH; [done|].
  simpl. by apply IH, hstep_wf.
Qed.

Lemma hstep_range lo hi sf H op :
  hdr.has_range lo hi sf (hist H) →
  hdr.has_range lo hi sf (hist (hstep H op)).
Proof.
  intros (Hl & Hh & Hs). destruct op as [v| |]; simpl; [|done..].
  unfold Histogram_RecordValue.
  pose proof (RecordValue_range v (hdr.Current (hist H))) as (?&?&?).
  destruct (hdr.RecordValue v _) as [e cur]. unfold hdr.has_range. simpl in *.
  repeat split; congruence.
Qed.

Lemma hrun_range lo hi sf ops H :
  hdr.has_range lo hi sf (hist H) →
  hdr.has_range lo hi sf (hist (hrun ops H)).
Proof.
  revert H. induction ops as [|op ops IH]; intros H HH; [done|].
  simpl. by apply IH, hstep_range.
Qed.

Lemma hrun_app ops1 ops2 H : hrun (ops1 ++ ops2) H = hrun ops2 (hrun ops1 H).
Proof. apply foldl_app. Qed.

(** Only [merge] writes the field [m]. *)
Lemma hrun_no_merge ops H : HMerge ∉ ops → m (hrun ops H) = m H.
Proof.
  revert H. induction ops as [|op ops IH]; intros H Hno; [done|].
  apply not_elem_of_cons in Hno as [Hop Hno]. simpl. rewrite IH by done.
  destruct op as [v| |]; simpl; [|done..].
  unfold Histogram_RecordValue. by destruct (hdr.RecordValue v _).
Qed.

Lemma hrun_last_merge pre post H :
  HMerge ∉ post →
  m (hrun (pre ++ HMerge :: post) H) = Some (hdr.Merge (hist (hrun pre H))).
Proof.
  intros Hno. rewrite hrun_app. simpl. by rewrite hrun_no_merge.
Qed.

End histogram_invariants.

(** * Histograms: recording and quantile gauges *)

Section histograms.
Context {F64 : Float64} {QZ : Quantizer} {U : Type}.
Implicit Types (H : Histogram) (ops : list HOp) (v lo hi sf : Z) (q : Q).
Implicit Types (w : World U) (l : loc).

Local Ltac q_le := unfold Qle; simpl; lia.

Lemma float64_le_refl_of_int64 (z : Z) :
  float64_le (float64_of_int64 z) (float64_of_int64 z).
Proof. apply float64_of_int64_mono. lia. Qed.

Lemma Histogram_valueAt_mono q1 q2 H :
  Histogram_wf H → (q1 <= q2)%Q → (q2 <= 100)%Q →
  float64_le (Histogram_valueAt q1 H) (Histogram_valueAt q2 H).
Proof.
  intros [_ Hm] H12 H2. unfold Histogram_valueAt.
  destruct (m H) as [md|]; [|apply float64_le_refl_of_int64].
  apply float64_of_int64_mono, ValueAtQuantile_mono; auto.
Qed.

(** The closure that [NewHistogram] installs reads the object behind its
    handle. *)
Lemma valueAt_closure l q w H :
  heap w !! l = Some H → valueAt l q w = (Histogram_valueAt q H, w).
Proof. intros Hl. unfold valueAt. by rewrite Hl. Qed.

(** The calls through a handle are the steps of the object's history. *)
Lemma RecordValue_hstep w l H v :
  heap w !! l = Some H →
  heap (RecordValue l v w).2 !! l = Some (hstep H (HRecordValue v)).
Proof.
  intros Hl. unfold RecordValue. rewrite Hl. simpl.
  destruct (Histogram_RecordValue v H) as [e H']. simpl.
  by rewrite lookup_insert_eq.
Qed.

Lemma rotate_hstep w l H :
  heap w !! l = Some H → heap (rotate l w) !! l = Some (hstep H HRotate).
Proof. intros Hl. simpl. by rewrite lookup_alter_eq, Hl. Qed.

Lemma merge_hstep w l H :
  heap w !! l = Some H → heap (merge l w) !! l = Some (hstep H HMerge).
Proof. intros Hl. simpl. by rewrite lookup_alter_eq, Hl. Qed.

Lemma Histogram_RecordValue_out_of_range v H :
  ¬ (hdr.lowest (hdr.Current (hist H)) <= v
     ∧ v <= hdr.highest (hdr.Current (hist H))) →
  Histogram_RecordValue v H = (Some (hdr.RangeError v), H).
Proof.
  intros Hout. unfold Histogram_RecordValue.
  rewrite RecordValue_out_of_range by done.
  by destruct H as [[cur win cap] md].
Qed.

(** C8: for every histogram, after any history of records, rotations and
    merges since its creation (so in particular once a merge has
    occurred), the quantile gauges are ordered:
    valueAt(50) ≤ valueAt(75) ≤ valueAt(90) ≤ valueAt(95) ≤ valueAt(99)
    ≤ valueAt(99.9). *)
Theorem quantile_gauges_monotone lo hi sf ops :
  let H := hrun ops (newHist lo hi sf) in
  float64_le (Histogram_valueAt 50 H) (Histogram_valueAt 75 H) ∧
  float64_le (Histogram_valueAt 75 H) (Histogram_valueAt 90 H) ∧
  float64_le (Histogram_valueAt 90 H) (Histogram_valueAt 95 H) ∧
  float64_le (Histogram_valueAt 95 H) (Histogram_valueAt 99 H) ∧
  float64_le (Histogram_valueAt 99 H) (Histogram_valueAt 99.9 H).
Proof.
  intros H.
  assert (Histogram_wf H) as Hwf by apply hrun_wf, newHist_wf.
  repeat split; apply Histogram_valueAt_mono; try done; q_le.
Qed.

(** C9: a quantile gauge of a histogram on which no merge has occurred
    since its creation returns exactly 0; after a merge it returns, for
    the distribution merged last, the smallest recorded bucket boundary
    whose cumulative count fraction is at least q/100. *)
Theorem valueAt_zero_until_merge_then_quantile lo hi sf ops q :
  let H := hrun ops (newHist lo hi sf) in
  (HMerge ∉ ops → Histogram_valueAt q H = float64_of_int64 0) ∧
  (∀ pre post, ops = pre ++ HMerge :: post → HMerge ∉ post →
     let md := hdr.Merge (hist (hrun pre (newHist lo hi sf))) in
     m H = Some md ∧
     Histogram_valueAt q H = float64_of_int64 (hdr.ValueAtQuantile md q) ∧
     (hdr.counts md ≠ ∅ → (q <= 100)%Q →
      let b := hdr.ValueAtQuantile md q in
      is_Some (hdr.counts md !! b) ∧
      (q / 100
       <= inject_Z (hdr.cumulative b md) / inject_Z (hdr.TotalCount md))%Q ∧
      ∀ b', is_Some (hdr.counts md !! b') →
            (q / 100
             <= inject_Z (hdr.cumulative b' md)
                / inject_Z (hdr.TotalCount md))%Q →
            b <= b')).
Proof.
  intros H. split.
  - intros Hno. unfold Histogram_valueAt.
    subst H. by rewrite hrun_no_merge.
  - intros pre post -> Hno md.
    assert (m H = Some md) as Hm by (subst H; by apply hrun_last_merge).
    split; [done|]. split.
    { unfold Histogram_valueAt. by rewrite Hm. }
    intros Hne Hq. apply ValueAtQuantile_smallest; try done.
    apply Merge_wf.
    by destruct (hrun_wf pre _ (newHist_wf lo hi sf)).
Qed.

(** C3: on a histogram made with range [lo,hi], whatever its history,
    [RecordValue(v)] for [v] outside the range returns a RangeError and
    changes nothing, so that the merged distribution and every gauge
    snapshot are what they were; for [v] inside the range it returns no
    error and adds one to the bucket of [v] in the current bucket set, and
    to nothing else. *)
Theorem RecordValue_checks_range w l lo hi sf ops v :
  heap w !! l = Some (hrun ops (newHist lo hi sf)) →
  let H := hrun ops (newHist lo hi sf) in
  (v < lo ∨ hi < v →
     RecordValue l v w = (Some (hdr.RangeError v), w) ∧
     (∀ H', heap (RecordValue l v w).2 !! l = Some H' →
            hdr.Merge (hist H') = hdr.Merge (hist H) ∧ m H' = m H) ∧
     (∀ io go, Gauges_in io go (RecordValue l v w).2 = Gauges_in io go w)) ∧
  (lo <= v ∧ v <= hi →
     let cur := hdr.Current (hist H) in
     let b := bucketBoundary sf v in
     RecordValue l v w
     = (None,
        mkWorld
          (<[l := mkHist
                    (hdr.mkWindowedHistogram
                       (hdr.mkHistogram lo hi sf
                          (<[b := hdr.countAt b (hdr.counts cur) + 1]>
                             (hdr.counts cur)))
                       (hdr.window (hist H)) (hdr.capacity (hist H)))
                    (m H)]> (heap w))
          (user w))).
Proof.
  intros Hl H.
  assert (hdr.has_range lo hi sf (hist H)) as (Hlo & Hhi & Hsf).
  { by apply hrun_range. }
  split.
  - intros Hout.
    assert (RecordValue l v w = (Some (hdr.RangeError v), w)) as Heq.
    { unfold RecordValue. rewrite Hl. fold H.
      rewrite Histogram_RecordValue_out_of_range by lia.
      rewrite insert_id by done. by destruct w. }
    rewrite Heq. simpl. split; [done|]. split; [|done].
    intros H' HH'. rewrite Hl in HH'. by injection HH' as <-.
  - intros Hin cur b. unfold RecordValue. rewrite Hl. fold H.
    unfold Histogram_RecordValue. fold cur.
    rewrite RecordValue_in_range by (subst cur; lia).
    subst cur b. by rewrite Hlo, Hhi, Hsf.
Qed.

End histograms.

(** * Snapshots *)

Section snapshots.
Context {F64 : Float64} {QZ : Quantizer} {U : Type}.
Implicit Types (st : State U) (w : World U).
Implicit Types (io : list (Key * InitFunc U)) (go : list (string * GaugeFunc U)).

(** The copy loop rebuilds the map, in whatever order it is visited. *)
Lemma copy_entries_list_to_map {V} (es : list (string * V)) :
  NoDup es.*1 → copy_entries es = list_to_map es.
Proof.
  unfold copy_entries. induction es as [|e es IH] using rev_ind; [done|].
  rewrite fmap_app, NoDup_app. intros (Hes & Hnot & _).
  rewrite foldl_app. simpl. rewrite IH by done. destruct e as [k x].
  symmetry. apply list_to_map_snoc. intros Hk. apply (Hnot k Hk). simpl. left.
Qed.

Lemma copy_entries_perm {V} (mp : gmap string V) (es : list (string * V)) :
  es ≡ₚ map_to_list mp → copy_entries es = mp.
Proof.
  intros Hp. rewrite copy_entries_list_to_map.
  - symmetry. by apply list_to_map_flip.
  - rewrite Hp. apply NoDup_fst_map_to_list.
Qed.

Lemma Counters_eq st : Counters st = counters st.
Proof. by apply copy_entries_perm. Qed.

Lemma counter_value_eq c st : counter_value c st = default 0 (counters st !! c).
Proof. unfold counter_value. by rewrite Counters_eq. Qed.

(** The initializer loop. *)
Lemma run_inits_from io w log :
  foldl (λ (wl : World U * list Key) e, (e.2 wl.1, wl.2 ++ [e.1])) (w, log) io
  = (foldl (λ w e, e.2 w) w io, log ++ io.*1).
Proof.
  revert w log. induction io as [|e io IH]; intros w log; simpl.
  - by rewrite app_nil_r.
  - rewrite IH. by rewrite <- app_assoc.
Qed.

Lemma run_inits_eq io w :
  run_inits io w = (foldl (λ w e, e.2 w) w io, io.*1).
Proof. unfold run_inits. by rewrite run_inits_from. Qed.

(** Counting the occurrences of a key in a log without repetition. *)
Lemma count_NoDup (k : Key) (log : list Key) :
  NoDup log →
  length (filter (λ k', k' = k) log) = if decide (k ∈ log) then 1%nat else 0%nat.
Proof.
  induction 1 as [|x log Hx Hnd IH]; [done|].
  rewrite filter_cons. destruct (decide (x = k)) as [->|Hne].
  - simpl. rewrite IH. rewrite decide_False by done.
    by rewrite decide_True by left.
  - rewrite IH. destruct (decide (k ∈ log)) as [Hin|Hin].
    + by rewrite decide_True by (by right).
    + rewrite decide_False; [done|].
      intros [->|?]%elem_of_cons; done.
Qed.

(** The evaluation loop. *)
Lemma eval_gauges_app go1 go2 gw :
  eval_gauges (go1 ++ go2) gw = eval_gauges go2 (eval_gauges go1 gw).
Proof. apply foldl_app. Qed.

Lemma eval_gauges_cons n f go (g : gmap string float64) w :
  eval_gauges ((n, f) :: go) (g, w)
  = eval_gauges go (<[n := (f w).1]> g, (f w).2).
Proof. simpl. by destruct (f w). Qed.

Lemma eval_gauges_other n go gw :
  n ∉ go.*1 → (eval_gauges go gw).1 !! n = gw.1 !! n.
Proof.
  revert gw. induction go as [|[n' f] go IH]; intros [g w] Hn; [done|].
  apply not_elem_of_cons in Hn as [Hne Hn].
  rewrite eval_gauges_cons, IH by done. simpl. by rewrite lookup_insert_ne.
Qed.

Lemma eval_gauges_dom go gw :
  dom (eval_gauges go gw).1 = dom gw.1 ∪ list_to_set go.*1.
Proof.
  revert gw. induction go as [|[n f] go IH]; intros [g w].
  - simpl. set_solver.
  - rewrite eval_gauges_cons, IH. simpl. rewrite dom_insert_L. set_solver.
Qed.

Lemma eval_gauges_read_only go gw :
  (∀ e w, e ∈ go → (e.2 w).2 = w) → (eval_gauges go gw).2 = gw.2.
Proof.
  revert gw. induction go as [|[n f] go IH]; intros [g w] Hro; [done|].
  rewrite eval_gauges_cons, IH.
  - simpl. apply (Hro (n, f)). left.
  - intros e w' He. apply Hro. by right.
Qed.

Lemma entries_keys {V} `{Countable K} (mp : gmap K V) (es : list (K * V)) k :
  es ≡ₚ map_to_list mp → k ∈ es.*1 ↔ is_Some (mp !! k).
Proof.
  intros Hp. rewrite Hp, list_elem_of_fmap. split.
  - intros ([k' x] & -> & Hin). apply elem_of_map_to_list in Hin. eauto.
  - intros [x Hx]. exists (k, x). split; [done|]. by apply elem_of_map_to_list.
Qed.

(** C1: for every registry state and every order in which [Gauges()]
    visits its two maps, the call runs the initializer of each registered
    batch key exactly once (and nothing else), however many gauges share
    the key, and the value reported for each gauge is the result of its
    installed evaluator, run after all the initializers have run. *)
Theorem Gauges_runs_each_initializer_once st w io go :
  io ≡ₚ map_to_list (inits st) →
  go ≡ₚ map_to_list (gauges st) →
  let s := Gauges_in io go w in
  let w1 := foldl (λ w e, e.2 w) w io in
  (∀ k, length (filter (λ k', k' = k) (called s))
        = if decide (is_Some (inits st !! k)) then 1%nat else 0%nat) ∧
  dom (values s) = dom (gauges st) ∧
  (∀ n f, gauges st !! n = Some f →
     ∃ pre post, go = pre ++ (n, f) :: post ∧
       values s !! n = Some (f (eval_gauges pre (∅, w1)).2).1) ∧
  ((∀ n f w', gauges st !! n = Some f → (f w').2 = w') →
   after s = w1 ∧
   ∀ n f, gauges st !! n = Some f → values s !! n = Some (f w1).1).
Proof.
  intros Hio Hgo s w1.
  assert (NoDup io.*1) as Hndi.
  { rewrite Hio. apply NoDup_fst_map_to_list. }
  assert (NoDup go.*1) as Hndg.
  { rewrite Hgo. apply NoDup_fst_map_to_list. }
  assert (s = mkSnapshot (eval_gauges go (∅, w1)).1
                         (eval_gauges go (∅, w1)).2 io.*1) as Hs.
  { subst s. unfold Gauges_in. rewrite run_inits_eq. fold w1.
    by destruct (eval_gauges go (∅, w1)). }
  assert (∀ n f, gauges st !! n = Some f →
     ∃ pre post, go = pre ++ (n, f) :: post ∧
       values s !! n = Some (f (eval_gauges pre (∅, w1)).2).1) as Hval.
  { intros n f Hf.
    assert ((n, f) ∈ go) as Hin.
    { rewrite Hgo. by apply elem_of_map_to_list. }
    apply list_elem_of_split in Hin as (pre & post & Hsplit).
    exists pre, post. split; [done|]. rewrite Hs. simpl.
    rewrite Hsplit, eval_gauges_app.
    destruct (eval_gauges pre (∅, w1)) as [g0 w0] eqn:Hpre.
    rewrite eval_gauges_cons, eval_gauges_other; simpl.
    - by rewrite lookup_insert_eq.
    - rewrite Hsplit, fmap_app, fmap_cons in Hndg.
      apply NoDup_app in Hndg as (_ & _ & Hnd).
      by apply NoDup_cons in Hnd as [Hnot _]. }
  split; [|split; [|split; [exact Hval|]]].
  - intros k. rewrite Hs. simpl. rewrite count_NoDup by done.
    destruct (decide (k ∈ io.*1)) as [Hin|Hin];
      rewrite (entries_keys (inits st)) in Hin by done.
    + by rewrite decide_True.
    + by rewrite decide_False.
  - rewrite Hs. simpl. rewrite eval_gauges_dom. simpl.
    apply set_eq. intros n. rewrite elem_of_union, elem_of_list_to_set.
    rewrite (entries_keys (gauges st)) by done. rewrite !elem_of_dom.
    rewrite lookup_empty. split; [intros [[? [=]]|]; done|by right].
  - intros Hro.
    assert (∀ pre gw, pre `prefix_of` go → (eval_gauges pre gw).2 = gw.2)
      as Hpre.
    { intros pre gw [post Hsplit]. apply eval_gauges_read_only.
      intros [n f] w' He. simpl. apply (Hro n f).
      apply elem_of_map_to_list. rewrite <- Hgo, Hsplit.
      apply elem_of_app. by left. }
    split.
    + rewrite Hs. simpl. by rewrite Hpre.
    + intros n f Hf. destruct (Hval n f Hf) as (pre & post & Hsplit & Hv).
      rewrite Hv. rewrite Hpre; [done|]. by exists ((n, f) :: post).
Qed.

End snapshots.

(** * Counters *)

Section counters.
Context {F64 : Float64} {QZ : Quantizer} {U : Type}.
Implicit Types (st : State U) (w : World U) (c : string) (ops : list (Op U)).

Lemma uint64_add_range a b : is_uint64 (uint64_add a b).
Proof. unfold is_uint64, uint64_add, uint64_modulus. apply Z.mod_pos_bound. lia. Qed.

Lemma counter_value_AddN c delta st :
  counter_value c (Counter_AddN c delta st)
  = uint64_add (counter_value c st) delta.
Proof. rewrite !counter_value_eq. simpl. by rewrite lookup_insert_eq. Qed.

Lemma counters_wf_initial w : counters_wf (initial w).
Proof. intros c v. simpl. by rewrite lookup_empty. Qed.

Lemma counters_wf_AddN c delta st :
  counters_wf st → counters_wf (Counter_AddN c delta st).
Proof.
  intros Hwf c' v. simpl. rewrite lookup_insert. case_decide.
  - intros [= <-]. apply uint64_add_range.
  - apply Hwf.
Qed.

Lemma counter_value_range c st : counters_wf st → is_uint64 (counter_value c st).
Proof.
  intros Hwf. rewrite counter_value_eq.
  destruct (counters st !! c) as [v|] eqn:Hc; simpl; [by eapply Hwf|].
  unfold is_uint64, uint64_modulus. lia.
Qed.

(** The six registrations of [NewHistogram], as one loop. *)
Lemma NewHistogram_unfold name lo hi sf st :
  NewHistogram name lo hi sf st
  = match histograms st !! name with
    | Some _ => Panic (name +:+ " already exists")
    | None =>
        let l := fresh (dom (heap (world st))) in
        Ok (l,
            foldl (λ st nq, Gauge_SetBatchFunc nq.1 (KString name) (merge l)
                              (valueAt l nq.2) st)
                  (mkState (counters st) (gauges st) (inits st)
                           (<[name := l]> (histograms st))
                           (mkWorld (<[l := newHist lo hi sf]>
                                       (heap (world st)))
                                    (user (world st))))
                  (zip (quantile_names name) quantiles))
    end.
Proof. reflexivity. Qed.

Lemma batch_frame (key : Key) (init : InitFunc U) (f : Q → GaugeFunc U)
    (nqs : list (string * Q)) st st' :
  foldl (λ st nq, Gauge_SetBatchFunc nq.1 key init (f nq.2) st) st nqs = st' →
  counters st' = counters st ∧ histograms st' = histograms st ∧
  world st' = world st.
Proof.
  revert st. induction nqs as [|nq nqs IH]; intros st; simpl.
  - by intros <-.
  - intros (-> & -> & ->)%IH. done.
Qed.

Lemma NewHistogram_Ok_inv name lo hi sf st l st' :
  NewHistogram name lo hi sf st = Ok (l, st') →
  histograms st !! name = None ∧
  l = fresh (dom (heap (world st))) ∧
  foldl (λ st nq, Gauge_SetBatchFunc nq.1 (KString name) (merge l)
                    (valueAt l nq.2) st)
        (mkState (counters st) (gauges st) (inits st)
                 (<[name := l]> (histograms st))
                 (mkWorld (<[l := newHist lo hi sf]> (heap (world st)))
                          (user (world st))))
        (zip (quantile_names name) quantiles) = st'.
Proof.
  rewrite NewHistogram_unfold. destruct (histograms st !! name); [done|].
  cbv zeta. set (l0 := fresh _). set (st0 := foldl _ _ _).
  intros Heq. assert (l0 = l ∧ st0 = st') as [<- <-]; [|done].
  split; congruence.
Qed.

Lemma NewHistogram_counters name lo hi sf st l st' :
  NewHistogram name lo hi sf st = Ok (l, st') → counters st' = counters st.
Proof.
  intros (_ & _ & Hst')%NewHistogram_Ok_inv.
  by apply (batch_frame _ _ (valueAt l)) in Hst' as (-> & _).
Qed.

(** What a call does to the map of counters. *)
Lemma step_counters op st st' :
  step op st st' →
  counters st' = counters st ∨
  (op = OpReset ∧ counters st' = ∅) ∨
  (∃ c delta, op = OpAddN c delta ∧ is_uint64 delta ∧
     counters st'
     = <[c := uint64_add (default 0 (counters st !! c)) delta]> (counters st)).
Proof.
  destruct 1; simpl; eauto 10.
  left. by eapply NewHistogram_counters.
Qed.

Lemma counters_wf_step op st st' :
  step op st st' → counters_wf st → counters_wf st'.
Proof.
  intros Hstep Hwf.
  destruct (step_counters _ _ _ Hstep)
    as [Heq|[[_ Heq]|(c & delta & _ & _ & Heq)]];
    intros c' v; rewrite Heq.
  - apply Hwf.
  - by rewrite lookup_empty.
  - rewrite lookup_insert. case_decide; [|apply Hwf].
    intros [= <-]. apply uint64_add_range.
Qed.

Lemma counters_wf_steps ops st st' :
  steps ops st st' → counters_wf st → counters_wf st'.
Proof. induction 1; eauto using counters_wf_step. Qed.

(** C4: [Add()] is [AddN(1)], and [AddN] is additive: [AddN(a)] then
    [AddN(b)] is [AddN] of the [uint64] sum a + b, and afterwards the
    snapshot value of the counter is the [uint64] sum prior + a + b, which
    is the sum itself as long as it fits in 64 bits. *)
Theorem AddN_additive st c a b :
  Counter_Add c st = Counter_AddN c 1 st ∧
  Counter_AddN c b (Counter_AddN c a st) = Counter_AddN c (uint64_add a b) st ∧
  counter_value c (Counter_AddN c b (Counter_AddN c a st))
  = (counter_value c st + a + b) mod uint64_modulus ∧
  (0 <= counter_value c st + a + b < uint64_modulus →
   Counters (Counter_AddN c b (Counter_AddN c a st)) !! c
   = Some (counter_value c st + a + b)).
Proof.
  assert (counter_value c (Counter_AddN c b (Counter_AddN c a st))
          = (counter_value c st + a + b) mod uint64_modulus) as Hsum.
  { rewrite !counter_value_AddN. unfold uint64_add.
    by rewrite Zplus_mod_idemp_l. }
  split; [done|]. split.
  { unfold Counter_AddN. simpl. rewrite lookup_insert_eq, insert_insert_eq.
    simpl. do 2 f_equal. unfold uint64_add.
    rewrite Zplus_mod_idemp_l, Zplus_mod_idemp_r. f_equal. lia. }
  split; [done|].
  intros Hfit. rewrite Z.mod_small in Hsum by done.
  rewrite <- Hsum. rewrite counter_value_eq, Counters_eq. simpl.
  by rewrite lookup_insert_eq.
Qed.

(** X15: in every registry reached from the empty one, the value of
    every counter is a [uint64], hence never negative, and [AddN(delta)]
    does not decrease it as long as prior + delta stays below 2^64; past
    that the value wraps around modulo 2^64. *)
Theorem AddN_monotone_until_overflow w ops st c delta :
  steps ops (initial w) st →
  is_uint64 delta →
  let prior := counter_value c st in
  let new := counter_value c (Counter_AddN c delta st) in
  0 <= prior ∧ 0 <= new ∧
  (prior + delta < uint64_modulus → new = prior + delta ∧ prior <= new) ∧
  (uint64_modulus <= prior + delta → new = prior + delta - uint64_modulus).
Proof.
  intros Hsteps Hdelta prior new.
  assert (is_uint64 prior) as Hprior.
  { apply counter_value_range.
    eauto using counters_wf_steps, counters_wf_initial. }
  assert (new = (prior + delta) mod uint64_modulus) as ->.
  { subst new. by rewrite counter_value_AddN. }
  unfold is_uint64, uint64_modulus in *.
  split; [lia|]. split; [apply Z.mod_pos_bound; lia|]. split.
  - intros Hfit. rewrite Z.mod_small by lia. lia.
  - intros Hover.
    replace (prior + delta) with ((prior + delta - 2 ^ 64) + 1 * 2 ^ 64) by lia.
    rewrite Z.mod_add by lia. rewrite Z.mod_small by lia. lia.
Qed.

(** C10: [AddN(0)] on a name that was never used creates the counter: the
    name is a key of the snapshot, with value 0, and stays so through all
    later calls for as long as nothing but 0 is added to it and the
    registry is not reset. *)
Theorem AddN_zero_creates_counter st c ops st' :
  counters st !! c = None →
  steps ops (Counter_AddN c 0 st) st' →
  OpReset ∉ ops →
  (∀ delta, OpAddN c delta ∈ ops → delta = 0) →
  Counters (Counter_AddN c 0 st) !! c = Some 0 ∧
  Counters st' !! c = Some 0.
Proof.
  intros Hnew Hsteps Hreset Hzero. rewrite !Counters_eq.
  assert (counters (Counter_AddN c 0 st) !! c = Some 0) as H0.
  { simpl. rewrite lookup_insert_eq, Hnew. done. }
  split; [done|].
  remember (Counter_AddN c 0 st) as st0 eqn:Hst0. clear Hst0 Hnew.
  induction Hsteps as [|op ops st1 st2 st3 Hstep Hsteps IH]; [done|].
  apply not_elem_of_cons in Hreset as [Hop Hreset].
  apply IH; [done|intros delta Hin; apply Hzero; by right|].
  destruct (step_counters _ _ _ Hstep)
    as [Heq|[[Heq _]|(c' & delta & Heq & _ & Hc)]].
  - by rewrite Heq.
  - congruence.
  - rewrite Hc, lookup_insert. case_decide as Hcc; [|done].
    subst c' op. rewrite (Hzero delta) by left. by rewrite H0.
Qed.

End counters.

(** * Batch initializers, [Reset] and [NewHistogram] *)

Section registry.
Context {F64 : Float64} {QZ : Quantizer} {U : Type}.
Implicit Types (st : State U) (w : World U) (ops : list (Op U)).
Implicit Types (k key : Key) (i init : InitFunc U) (f : GaugeFunc U).
Implicit Types (g n name : string) (nqs : list (string * Q)).

Lemma SetBatchFunc_inits_keep g key init f st k i :
  inits st !! k = Some i →
  inits (Gauge_SetBatchFunc g key init f st) !! k = Some i.
Proof.
  intros Hk. simpl. destruct (inits st !! key) eqn:Hkey; [done|].
  rewrite lookup_insert_ne; [done|]. congruence.
Qed.

Lemma SetBatchFunc_inits_origin g key init f st k i :
  inits (Gauge_SetBatchFunc g key init f st) !! k = Some i →
  inits st !! k = Some i ∨ (key = k ∧ init = i).
Proof.
  simpl. destruct (inits st !! key) eqn:Hkey; [by left|].
  rewrite lookup_insert. case_decide; [|by left].
  intros [= <-]. by right.
Qed.

Lemma batch_inits_keep key init (fq : Q → GaugeFunc U) nqs st k i :
  inits st !! k = Some i →
  inits (foldl (λ st nq, Gauge_SetBatchFunc nq.1 key init (fq nq.2) st) st nqs)
    !! k = Some i.
Proof.
  revert st. induction nqs as [|nq nqs IH]; intros st Hk; [done|].
  simpl. by apply IH, SetBatchFunc_inits_keep.
Qed.

Lemma batch_inits_origin key init (fq : Q → GaugeFunc U) nqs st k i :
  inits (foldl (λ st nq, Gauge_SetBatchFunc nq.1 key init (fq nq.2) st) st nqs)
    !! k = Some i →
  inits st !! k = Some i ∨ (key = k ∧ init = i).
Proof.
  revert st. induction nqs as [|nq nqs IH]; intros st; [by left|].
  simpl. intros [Hk|Hk]%IH; [|by right].
  by apply SetBatchFunc_inits_origin in Hk.
Qed.






Lemma quantile_names_NoDup name : NoDup (quantile_names name).
Proof.
  change (quantile_names name)
    with ((λ s, name +:+ s) <$> [".P50"; ".P75"; ".P90"; ".P95"; ".P99"; ".P999"]).
  apply (NoDup_fmap_2 _). compute_done.
Qed.

Lemma quantile_entries_fst name :
  (zip (quantile_names name) quantiles).*1 = quantile_names name.
Proof. reflexivity. Qed.

(** What a call does to a registered initializer: it stays, unless the
    call is [Reset]. *)
Lemma step_inits_keep op st st' k i :
  step op st st' → op ≠ OpReset →
  inits st !! k = Some i → inits st' !! k = Some i.
Proof.
  destruct 1 as [| | | | | | | name lo hi sf st l st' Hnew | |];
    intros Hop Hk; try done.
  - by apply SetBatchFunc_inits_keep.
  - apply NewHistogram_Ok_inv in Hnew as (_ & _ & <-).
    by apply (batch_inits_keep _ _ (valueAt l)).
Qed.

Lemma steps_inits_keep ops st st' k i :
  steps ops st st' → OpReset ∉ ops →
  inits st !! k = Some i → inits st' !! k = Some i.
Proof.
  induction 1 as [|op ops st1 st2 st3 Hstep Hsteps IH]; [done|].
  intros [Hop Hreset]%not_elem_of_cons Hk.
  apply IH; [done|]. eapply step_inits_keep; eauto.
Qed.

(** Where a registered initializer comes from. *)
Lemma step_inits_origin op st st' k i :
  step op st st' → inits st' !! k = Some i →
  inits st !! k = Some i ∨ registers k i op.
Proof.
  destruct 1 as [| | | | | | | name lo hi sf st l st' Hnew | |];
    try (intros Hk; by left).
  - intros [Hk|Hk]%SetBatchFunc_inits_origin; [by left|by right].
  - apply NewHistogram_Ok_inv in Hnew as (_ & _ & <-).
    intros [Hk|[<- _]]%(batch_inits_origin _ _ (valueAt l));
      [by left|by right].
Qed.

Lemma steps_inits_origin ops st st' k i :
  steps ops st st' → inits st' !! k = Some i →
  inits st !! k = Some i ∨ Exists (registers k i) ops.
Proof.
  induction 1 as [|op ops st1 st2 st3 Hstep Hsteps IH]; [by left|].
  intros [Hk|Hk]%IH; [|right; by apply Exists_cons_tl].
  destruct (step_inits_origin _ _ _ _ _ Hstep Hk) as [Hk'|Hreg]; [by left|].
  right. by apply Exists_cons_hd.
Qed.

(** C6: the first initializer registered for a batch key wins: once
    [SetBatchFunc(key, init1, f1)] has registered [init1] for a key that
    had none, then after any further calls other than [Reset], a later
    [SetBatchFunc(key, init2, f2)] leaves [init1] as the initializer of
    the key, and still installs [f2] as the evaluator of its gauge. *)
Theorem first_initializer_wins st g1 g2 key init1 init2 f1 f2 ops st2 :
  inits st !! key = None →
  steps ops (Gauge_SetBatchFunc g1 key init1 f1 st) st2 →
  OpReset ∉ ops →
  let st3 := Gauge_SetBatchFunc g2 key init2 f2 st2 in
  inits (Gauge_SetBatchFunc g1 key init1 f1 st) !! key = Some init1 ∧
  inits st3 !! key = Some init1 ∧
  gauges st3 !! g2 = Some f2.
Proof.
  intros Hfree Hsteps Hreset st3.
  assert (inits (Gauge_SetBatchFunc g1 key init1 f1 st) !! key = Some init1)
    as H1.
  { simpl. rewrite Hfree. by rewrite lookup_insert_eq. }
  split; [done|]. split.
  - apply SetBatchFunc_inits_keep. eapply steps_inits_keep; eauto.
  - simpl. by rewrite lookup_insert_eq.
Qed.

(** C7: [Reset()] replaces the maps of counters, gauges, histograms and
    batch initializers by empty ones in one step: whatever the registry
    was, afterwards [Counters()] and [Gauges()] return empty maps, the
    snapshot runs no initializer, and every initializer that a later
    snapshot can run was registered after the reset.  The older variant of
    the package, which has no initializers, clears its three maps
    likewise. *)
Theorem Reset_clears_everything st (lst : legacy.State U) :
  Reset st = initial (world st) ∧
  Counters (Reset st) = ∅ ∧
  (Gauges (Reset st)).1 = ∅ ∧
  (∀ io go w,
     io ≡ₚ map_to_list (inits (Reset st)) →
     go ≡ₚ map_to_list (gauges (Reset st)) →
     Gauges_in io go w = mkSnapshot ∅ w []) ∧
  (∀ ops st' k i,
     steps ops (Reset st) st' → inits st' !! k = Some i →
     Exists (registers k i) ops) ∧
  legacy.Counters (legacy.Reset lst) = ∅ ∧
  (∀ go ho (lw : legacy.World U),
     go ≡ₚ map_to_list (legacy.gauges (legacy.Reset lst)) →
     ho ≡ₚ map_to_list (legacy.histograms (legacy.Reset lst)) →
     legacy.Gauges_in go ho lw = (∅, lw)).
Proof.
  split; [done|]. split; [by rewrite Counters_eq|].
  split; [|split; [|split; [|split]]].
  - unfold Gauges. simpl. by rewrite !map_to_list_empty.
  - intros io go w. simpl. rewrite !map_to_list_empty.
    by intros ->%Permutation_nil_r ->%Permutation_nil_r.
  - intros ops st' k i Hsteps Hk.
    destruct (steps_inits_origin _ _ _ _ _ Hsteps Hk) as [Hk'|Hreg]; [|done].
    simpl in Hk'. by rewrite lookup_empty in Hk'.
  - unfold legacy.Counters. simpl. by rewrite map_to_list_empty.
  - intros go ho w. simpl. rewrite !map_to_list_empty.
    by intros ->%Permutation_nil_r ->%Permutation_nil_r.
Qed.


End registry.

(** * The theorems at work on concrete registries *)

Section concrete.
Import examples.
#[local] Existing Instance exact_float64.
#[local] Existing Instance unit_resolution.

Local Ltac in_uint64 := unfold is_uint64, uint64_modulus; lia.

Local Ltac not_in_list :=
  let Hin := fresh "Hin" in
  intros Hin;
  repeat (apply elem_of_cons in Hin as [Hin|Hin]; [discriminate Hin|]);
  by apply elem_of_nil in Hin.

(** Scenario A: [Add()] then [AddN(10)] on "whee". *)
Example counter_whee :
  Counters (Counter_AddN "whee" 10 (Counter_Add "whee" ex_empty)) !! "whee"
  = Some 11.
Proof. by rewrite Counters_eq. Qed.

(** Scenario B: a gauge set to a value reports it. *)
Example gauge_whee (v : float64) :
  (Gauges (Gauge_Set "whee" v ex_empty)).1 !! "whee" = Some v.
Proof. reflexivity. Qed.

(** Two gauges share a batch key whose initializer counts its calls: one
    snapshot, one call. *)
Example batch_initializer_runs_once :
  user (world (Gauges ex_batch).2) = 1%nat ∧
  (Gauges ex_batch).1 = {["a" := 1; "b" := 1]}.
Proof. split; [reflexivity|]. by vm_compute. Qed.

(** Scenario C: the triangular distribution on [1,1000] at precision 3. *)
Example histogram_heyo :
  let g := (Gauges ex_triangle).1 in
  g !! "heyo.P50" = Some 71 ∧ g !! "heyo.P75" = Some 87 ∧
  g !! "heyo.P90" = Some 95 ∧ g !! "heyo.P95" = Some 98 ∧
  g !! "heyo.P99" = Some 100 ∧ g !! "heyo.P999" = Some 100.
Proof. by vm_compute. Qed.

(** A second histogram of the same name is fatal. *)
Example histogram_heyo_twice :
  NewHistogram "heyo" 1 1000 3 ex_heyo = Panic "heyo already exists".
Proof. reflexivity. Qed.

Lemma Gauges_runs_each_initializer_once_witness :
  let io := map_to_list (inits ex_batch) in
  let go := map_to_list (gauges ex_batch) in
  io ≡ₚ map_to_list (inits ex_batch) ∧
  go ≡ₚ map_to_list (gauges ex_batch) ∧
  length (filter (λ k', k' = KString "K") (called (Gauges_in io go ex_world)))
  = 1%nat ∧
  dom (values (Gauges_in io go ex_world)) = dom (gauges ex_batch).
Proof.
  intros io go.
  destruct (Gauges_runs_each_initializer_once ex_batch ex_world io go
              (reflexivity _) (reflexivity _)) as (Hcount & Hdom & _).
  split; [reflexivity|]. split; [reflexivity|]. split.
  - rewrite (Hcount (KString "K")). reflexivity.
  - exact Hdom.
Defined.

Lemma RecordValue_checks_range_witness :
  heap (world ex_heyo) !! 1%positive = Some (hrun [] (newHist 1 1000 3)) ∧
  RecordValue 1%positive 1001 (world ex_heyo)
  = (Some (hdr.RangeError 1001), world ex_heyo) ∧
  (RecordValue 1%positive 1000 (world ex_heyo)).1 = None.
Proof.
  assert (heap (world ex_heyo) !! 1%positive
          = Some (hrun [] (newHist 1 1000 3))) as Hl by reflexivity.
  split; [exact Hl|].
  destruct (RecordValue_checks_range (world ex_heyo) 1%positive 1 1000 3 []
              1001 Hl) as [Hout _].
  destruct (RecordValue_checks_range (world ex_heyo) 1%positive 1 1000 3 []
              1000 Hl) as [_ Hin].
  split.
  - apply Hout. right. reflexivity.
  - rewrite Hin; [reflexivity|]. lia.
Defined.

Lemma AddN_monotone_until_overflow_witness :
  steps [OpAddN "c" 5] ex_empty (Counter_AddN "c" 5 ex_empty) ∧
  is_uint64 7 ∧
  counter_value "c" (Counter_AddN "c" 7 (Counter_AddN "c" 5 ex_empty))
  = counter_value "c" (Counter_AddN "c" 5 ex_empty) + 7.
Proof.
  assert (is_uint64 5) as H5 by in_uint64.
  assert (is_uint64 7) as H7 by in_uint64.
  assert (steps [OpAddN "c" 5] ex_empty (Counter_AddN "c" 5 ex_empty))
    as Hsteps.
  { eapply steps_cons; [by apply step_AddN|apply steps_nil]. }
  split; [exact Hsteps|]. split; [exact H7|].
  destruct (AddN_monotone_until_overflow ex_world [OpAddN "c" 5]
              (Counter_AddN "c" 5 ex_empty) "c" 7 Hsteps H7)
    as (_ & _ & Hfit & _).
  apply Hfit. reflexivity.
Defined.

Lemma first_initializer_wins_witness :
  let st1 := Gauge_SetBatchFunc "a" (KString "K") ex_bump ex_read ex_empty in
  let st2 := Counter_AddN "c" 1 st1 in
  inits ex_empty !! KString "K" = None ∧
  steps [OpAddN "c" 1] st1 st2 ∧
  (OpReset ∉ [OpAddN (U := nat) "c" 1]) ∧
  inits (Gauge_SetBatchFunc "b" (KString "K") (λ w, w) ex_read st2)
    !! KString "K" = Some ex_bump.
Proof.
  intros st1 st2.
  assert (steps [OpAddN "c" 1] st1 st2) as Hsteps.
  { eapply steps_cons; [|apply steps_nil].
    apply step_AddN. in_uint64. }
  assert (OpReset ∉ [OpAddN (U := nat) "c" 1]) as Hreset by not_in_list.
  split; [reflexivity|]. split; [exact Hsteps|]. split; [exact Hreset|].
  apply (first_initializer_wins ex_empty "a" "b" (KString "K") ex_bump
           (λ w, w) ex_read ex_read [OpAddN "c" 1] st2 eq_refl Hsteps Hreset).
Defined.

Lemma AddN_zero_creates_counter_witness :
  let ops := [OpAddN (U := nat) "d" 3; OpAddN "c" 0; OpSet "g" 1] in
  counters ex_empty !! "c" = None ∧
  steps ops (Counter_AddN "c" 0 ex_empty) ex_later ∧
  (OpReset ∉ ops) ∧
  Counters ex_later !! "c" = Some 0.
Proof.
  intros ops.
  assert (steps ops (Counter_AddN "c" 0 ex_empty) ex_later) as Hsteps.
  { eapply steps_cons; [apply step_AddN; in_uint64|].
    eapply steps_cons; [apply step_AddN; in_uint64|].
    eapply steps_cons; [apply step_Set|apply steps_nil]. }
  assert (OpReset ∉ ops) as Hreset by (subst ops; not_in_list).
  assert (∀ delta, OpAddN "c" delta ∈ ops → delta = 0) as Hzero.
  { intros delta Hin. subst ops.
    repeat (apply elem_of_cons in Hin as [Hin|Hin];
            [by inversion Hin|]).
    by apply elem_of_nil in Hin. }
  split; [reflexivity|]. split; [exact Hsteps|]. split; [exact Hreset|].
  apply (AddN_zero_creates_counter ex_empty "c" ops ex_later eq_refl
           Hsteps Hreset Hzero).
Defined.

Lemma AddN_wraps_around_counterexample :
  ¬ (∀ (w : World nat) (ops : list (Op nat)) (st : State nat) c delta,
       steps ops (initial w) st → is_uint64 delta →
       counter_value c st <= counter_value c (Counter_AddN c delta st)).
Proof.
  intros Hclaim.
  assert (is_uint64 (2 ^ 64 - 1)) as Hmax by in_uint64.
  assert (is_uint64 1) as H1 by in_uint64.
  specialize (Hclaim ex_world [OpAddN "c" (2 ^ 64 - 1)] ex_full "c" 1).
  rewrite counter_value_AddN in Hclaim.
  assert (counter_value "c" ex_full = 2 ^ 64 - 1) as Hfull.
  { by rewrite counter_value_eq. }
  rewrite Hfull in Hclaim.
  assert (2 ^ 64 - 1 <= uint64_add (2 ^ 64 - 1) 1) as Hle.
  { apply Hclaim; [|exact H1].
    eapply steps_cons; [by apply step_AddN|apply steps_nil]. }
  vm_compute in Hle. by apply Hle.
Qed.


End concrete.

(** * Reasoning about one snapshot *)

Section snapshot_rules.
Context {F64 : Float64} {QZ : Quantizer} {U : Type}.
Implicit Types (st : State U) (w : World U) (ops : list (Op U)).
Implicit Types (io : list (Key * InitFunc U)) (go : list (string * GaugeFunc U)).

Lemma Gauges_in_eq io go w :
  let w1 := foldl (λ w e, e.2 w) w io in
  Gauges_in io go w
  = mkSnapshot (eval_gauges go (∅, w1)).1 (eval_gauges go (∅, w1)).2 io.*1.
Proof.
  intros w1. unfold Gauges_in. rewrite run_inits_eq. fold w1.
  by destruct (eval_gauges go (∅, w1)).
Qed.

(** The value of a gauge is what its evaluator returns where the loop
    finds it. *)
Lemma Gauges_in_value st io go w n f :
  go ≡ₚ map_to_list (gauges st) →
  gauges st !! n = Some f →
  ∃ pre post, go = pre ++ (n, f) :: post ∧
    values (Gauges_in io go w) !! n
    = Some (f (eval_gauges pre (∅, foldl (λ w e, e.2 w) w io)).2).1.
Proof.
  intros Hgo Hf.
  assert (NoDup go.*1) as Hnd.
  { rewrite Hgo. apply NoDup_fst_map_to_list. }
  assert ((n, f) ∈ go) as Hin.
  { rewrite Hgo. by apply elem_of_map_to_list. }
  apply list_elem_of_split in Hin as (pre & post & Hsplit).
  exists pre, post. split; [done|]. rewrite Gauges_in_eq. simpl.
  rewrite Hsplit, eval_gauges_app.
  destruct (eval_gauges pre _) as [g0 w0] eqn:Hpre.
  rewrite eval_gauges_cons, eval_gauges_other; simpl.
  - by rewrite lookup_insert_eq.
  - rewrite Hsplit, fmap_app, fmap_cons in Hnd.
    apply NoDup_app in Hnd as (_ & _ & Hnd).
    by apply NoDup_cons in Hnd as [Hnot _].
Qed.

Lemma run_preserves (P : World U → Prop) io w :
  (∀ e, e ∈ io → ∀ w', P w' → P (e.2 w')) →
  P w → P (foldl (λ w e, e.2 w) w io).
Proof.
  revert w. induction io as [|e io IH]; intros w Hall Hw; [done|].
  simpl. apply IH.
  - intros e' He'. apply Hall. by right.
  - apply (Hall e); [left|done].
Qed.

Lemma eval_preserves (P : World U → Prop) go gw :
  (∀ e, e ∈ go → ∀ w', P w' → P (e.2 w').2) →
  P gw.2 → P (eval_gauges go gw).2.
Proof.
  revert gw. induction go as [|[n f] go IH]; intros [g w] Hall Hw; [done|].
  rewrite eval_gauges_cons. apply IH.
  - intros e' He'. apply Hall. by right.
  - simpl. apply (Hall (n, f)); [left|done].
Qed.

(** One initializer establishes a property of the store, the other
    callbacks keep it: then every gauge is evaluated in a store that has
    it. *)
Lemma Gauges_in_establishes (Q : World U → Prop) (P : World U → World U → Prop)
    st io go w k0 i0 :
  io ≡ₚ map_to_list (inits st) →
  go ≡ₚ map_to_list (gauges st) →
  inits st !! k0 = Some i0 →
  Q w →
  (∀ w', Q w' → P w' (i0 w')) →
  (∀ k i, inits st !! k = Some i → k ≠ k0 →
          (∀ w', Q w' → Q (i w')) ∧ (∀ wr w', P wr w' → P wr (i w'))) →
  (∀ n f, gauges st !! n = Some f → ∀ wr w', P wr w' → P wr (f w').2) →
  ∃ wr, Q wr ∧ P wr (after (Gauges_in io go w)) ∧
    ∀ n f, gauges st !! n = Some f →
      ∃ wn, P wr wn ∧ values (Gauges_in io go w) !! n = Some (f wn).1.
Proof.
  intros Hio Hgo Hk0 HQ Hest Hothers Hevals.
  assert (NoDup io.*1) as Hnd.
  { rewrite Hio. apply NoDup_fst_map_to_list. }
  assert ((k0, i0) ∈ io) as Hin.
  { rewrite Hio. by apply elem_of_map_to_list. }
  apply list_elem_of_split in Hin as (ipre & ipost & Hsplit).
  rewrite Hsplit, fmap_app, fmap_cons in Hnd. simpl in Hnd.
  apply NoDup_app in Hnd as (_ & Hpre & Hnd).
  apply NoDup_cons in Hnd as [Hpost _].
  assert (∀ e, e ∈ io → e.1 ≠ k0 →
            (∀ w', Q w' → Q (e.2 w')) ∧ (∀ wr w', P wr w' → P wr (e.2 w')))
    as Hother.
  { intros [k i] He Hne. apply (Hothers k i); [|done].
    apply elem_of_map_to_list. by rewrite <- Hio. }
  set (wr := foldl (λ w e, e.2 w) w ipre).
  assert (Q wr) as HQr.
  { apply run_preserves; [|done]. intros e He. apply Hother.
    - rewrite Hsplit. apply elem_of_app. by left.
    - intros Heq. apply (Hpre k0); [|left].
      rewrite <- Heq. apply list_elem_of_fmap. by exists e. }
  set (w1 := foldl (λ w e, e.2 w) w io).
  assert (P wr w1) as HP1.
  { subst w1. rewrite Hsplit, foldl_app. simpl. fold wr.
    apply (run_preserves (P wr)); [|by apply Hest].
    intros e He. apply Hother.
    - rewrite Hsplit. apply elem_of_app. right. by right.
    - intros Heq. apply Hpost. rewrite <- Heq.
      apply list_elem_of_fmap. by exists e. }
  assert (∀ pre gw, pre `prefix_of` go → P wr gw.2 →
                    P wr (eval_gauges pre gw).2) as Hprefix.
  { intros pre gw [post Hgosplit] Hgw. apply (eval_preserves (P wr)); [|done].
    intros [n f] He. simpl. apply (Hevals n f).
    apply elem_of_map_to_list. rewrite <- Hgo, Hgosplit.
    apply elem_of_app. by left. }
  exists wr. split; [done|]. split.
  - rewrite Gauges_in_eq. simpl. by apply Hprefix.
  - intros n f Hf.
    destruct (Gauges_in_value st io go w n f Hgo Hf)
      as (pre & post & Hgosplit & Hv).
    exists (eval_gauges pre (∅, w1)).2. split; [|done].
    apply Hprefix; [|done]. by exists ((n, f) :: post).
Qed.

(** The initializer of a registered key is called once. *)
Lemma Gauges_in_called st io go w k :
  io ≡ₚ map_to_list (inits st) →
  is_Some (inits st !! k) →
  length (filter (λ k', k' = k) (called (Gauges_in io go w))) = 1%nat.
Proof.
  intros Hio Hk. rewrite Gauges_in_eq. simpl.
  rewrite count_NoDup by (rewrite Hio; apply NoDup_fst_map_to_list).
  rewrite decide_True; [done|]. by apply (entries_keys (inits st)).
Qed.

(** X1: a gauge set to a value reports exactly that value in the next
    snapshot, whatever else is registered and in whatever order the
    snapshot visits its maps. *)
Theorem Set_then_snapshot st g (v : float64) w io go :
  io ≡ₚ map_to_list (inits (Gauge_Set g v st)) →
  go ≡ₚ map_to_list (gauges (Gauge_Set g v st)) →
  values (Gauges_in io go w) !! g = Some v.
Proof.
  intros Hio Hgo.
  destruct (Gauges_in_value (Gauge_Set g v st) io go w g (λ w', (v, w')) Hgo)
    as (pre & post & _ & ->); [|done].
  simpl. by rewrite lookup_insert_eq.
Qed.

(** X2: a batch initializer is never unregistered by anything but
    [Reset]: through all later calls, including ones that replace every
    gauge of its batch, it stays registered and each snapshot still calls
    it exactly once. *)
Theorem initializer_outlives_its_gauges st ops st' k (i : InitFunc U) w io go :
  inits st !! k = Some i →
  steps ops st st' →
  OpReset ∉ ops →
  io ≡ₚ map_to_list (inits st') →
  go ≡ₚ map_to_list (gauges st') →
  inits st' !! k = Some i ∧
  length (filter (λ k', k' = k) (called (Gauges_in io go w))) = 1%nat.
Proof.
  intros Hk Hsteps Hreset Hio Hgo.
  assert (inits st' !! k = Some i) as Hk'.
  { eapply steps_inits_keep; eauto. }
  split; [done|]. by apply (Gauges_in_called st').
Qed.

End snapshot_rules.

(** * More about counters *)

Section counters_more.
Context {F64 : Float64} {QZ : Quantizer} {U : Type}.
Implicit Types (st : State U) (c : string) (ops : list (Op U)).

Lemma uint64_add_swap p a b :
  uint64_add (uint64_add p a) b = uint64_add (uint64_add p b) a.
Proof.
  unfold uint64_add. rewrite !Zplus_mod_idemp_l. f_equal. lia.
Qed.

Lemma counter_value_AddN_other c c' delta st :
  c ≠ c' → counter_value c' (Counter_AddN c delta st) = counter_value c' st.
Proof.
  intros Hne. rewrite !counter_value_eq. simpl. by rewrite lookup_insert_ne.
Qed.

(** X3: [AddN] calls commute, on one counter or on two, so the order in
    which callers get the lock does not show in the registry; and [AddN]
    on one counter leaves the value of every other counter alone. *)
Theorem AddN_commutes st c1 c2 a b :
  Counter_AddN c1 a (Counter_AddN c2 b st)
  = Counter_AddN c2 b (Counter_AddN c1 a st) ∧
  ∀ c', c' ≠ c1 →
        counter_value c' (Counter_AddN c1 a st) = counter_value c' st.
Proof.
  split; [|intros c' Hne; by apply counter_value_AddN_other].
  unfold Counter_AddN. simpl. f_equal.
  destruct (decide (c1 = c2)) as [->|Hne].
  - rewrite !lookup_insert_eq, !insert_insert_eq. simpl.
    by rewrite uint64_add_swap.
  - rewrite !lookup_insert_ne by done. by apply insert_insert_ne.
Qed.

(** X4: any number of [AddN] calls on a counter add up: after
    [AddN(d)], [AddN(d1)], ..., [AddN(dn)] the snapshot value is the
    [uint64] sum of the prior value and all the deltas. *)
Theorem AddN_sums st c d ds :
  counter_value c (foldl (λ st d, Counter_AddN c d st) st (d :: ds))
  = (counter_value c st + d + foldr Z.add 0 ds) mod uint64_modulus.
Proof.
  simpl. revert st d. induction ds as [|d' ds IH]; intros st d.
  - simpl. rewrite counter_value_AddN. unfold uint64_add. f_equal. lia.
  - simpl. rewrite IH, counter_value_AddN. unfold uint64_add.
    by rewrite <- Z.add_assoc, Zplus_mod_idemp_l.
Qed.

(** X5: a counter changes only through [AddN] on its own name and through
    [Reset]: every other call, on any name, leaves its snapshot entry as
    it was. *)
Theorem counter_changes_only_by_its_AddN st ops st' c :
  steps ops st st' →
  OpReset ∉ ops →
  (∀ delta, OpAddN c delta ∉ ops) →
  Counters st' !! c = Counters st !! c.
Proof.
  rewrite !Counters_eq. intros Hsteps.
  induction Hsteps as [|op ops st1 st2 st3 Hstep Hsteps IH]; [done|].
  intros [Hop Hreset]%not_elem_of_cons Hadd.
  rewrite IH; [|done|intros delta Hin; apply (Hadd delta); by right].
  destruct (step_counters _ _ _ Hstep)
    as [Heq|[[Heq _]|(c' & delta & Heq & _ & Hc)]].
  - by rewrite Heq.
  - congruence.
  - rewrite Hc, lookup_insert_ne; [done|]. intros ->.
    apply (Hadd delta). subst op. left.
Qed.

End counters_more.

(** * More about histograms in the registry *)

Section histograms_more.
Context {F64 : Float64} {QZ : Quantizer} {U : Type}.
Implicit Types (st : State U) (w : World U) (ops : list (Op U)).
Implicit Types (l : loc) (H : Histogram) (q : Q) (v : Z) (name n : string).

(** A quantile gauge reads the field [m] of its histogram and nothing
    else. *)
Lemma valueAt_reads_m l q w w' :
  m <$> heap w' !! l = m <$> heap w !! l →
  (valueAt l q w').1 = (valueAt l q w).1.
Proof.
  unfold valueAt, Histogram_valueAt. simpl.
  destruct (heap w' !! l) as [[? m']|], (heap w !! l) as [[? m0]|];
    simpl; intros Heq; by simplify_eq.
Qed.

Lemma RecordValue_other l l' v w :
  l ≠ l' → heap (RecordValue l v w).2 !! l' = heap w !! l'.
Proof.
  intros Hne. unfold RecordValue. destruct (heap w !! l) as [H|]; [|done].
  destruct (Histogram_RecordValue v H) as [e H']. simpl.
  by rewrite lookup_insert_ne.
Qed.

Lemma RecordValue_keeps_m l l' v w :
  m <$> heap (RecordValue l v w).2 !! l' = m <$> heap w !! l'.
Proof.
  destruct (decide (l = l')) as [<-|Hne]; [|by rewrite RecordValue_other].
  destruct (heap w !! l) as [H|] eqn:Hl.
  - rewrite (RecordValue_hstep w l H v Hl). simpl.
    unfold Histogram_RecordValue.
    destruct (hdr.RecordValue v _). simpl. reflexivity.
  - unfold RecordValue. rewrite Hl. simpl. by rewrite Hl.
Qed.

Lemma rotate_lookup l l' w :
  heap (rotate l w) !! l'
  = if decide (l = l') then Histogram_rotate <$> heap w !! l'
    else heap w !! l'.
Proof.
  simpl. case_decide as Hl.
  - subst l'. by rewrite lookup_alter_eq.
  - by rewrite lookup_alter_ne.
Qed.

Lemma rotate_keeps_m l l' w : m <$> heap (rotate l w) !! l' = m <$> heap w !! l'.
Proof.
  rewrite rotate_lookup. case_decide; [|done].
  by destruct (heap w !! l').
Qed.

Lemma rotate_user l w : user (rotate l w) = user w.
Proof. done. Qed.

Lemma rotations_keep_m (es : list (string * loc)) l' w :
  m <$> heap (foldl (λ w e, rotate e.2 w) w es) !! l' = m <$> heap w !! l'.
Proof.
  revert w. induction es as [|e es IH]; intros w; [done|].
  simpl. by rewrite IH, rotate_keeps_m.
Qed.

Lemma rotations_other (es : list (string * loc)) l' w :
  l' ∉ es.*2 →
  heap (foldl (λ w e, rotate e.2 w) w es) !! l' = heap w !! l'.
Proof.
  revert w. induction es as [|e es IH]; intros w Hno; [done|].
  rewrite fmap_cons in Hno. apply not_elem_of_cons in Hno as [Hne Hno].
  simpl. rewrite IH by done. rewrite rotate_lookup.
  by rewrite decide_False by done.
Qed.

Lemma rotations_user (es : list (string * loc)) w :
  user (foldl (λ w e, rotate e.2 w) w es) = user w.
Proof.
  revert w. induction es as [|e es IH]; intros w; [done|].
  simpl. by rewrite IH.
Qed.

(** X6: quantile gauges are lazy: recording a value and rotating the
    window never change what a quantile gauge returns; only the merge that
    the next snapshot runs does. *)
Theorem quantile_gauges_change_only_by_merge st w l l' v q :
  (valueAt l' q (RecordValue l v w).2).1 = (valueAt l' q w).1 ∧
  (valueAt l' q (rotate l w)).1 = (valueAt l' q w).1 ∧
  (valueAt l' q (world (tick st))).1 = (valueAt l' q (world st)).1.
Proof.
  split; [|split]; apply valueAt_reads_m.
  - apply RecordValue_keeps_m.
  - apply rotate_keeps_m.
  - apply rotations_keep_m.
Qed.

(** X7: a snapshot reports a histogram as it is at the snapshot: when
    the histogram's merge is the initializer of its batch and the other
    callbacks leave the histogram alone, each of its quantile gauges
    reports the quantile of the merge of the current bucket set and window,
    in whatever order the snapshot visits its maps, and whatever was merged
    before. *)
Theorem snapshot_reports_current_quantiles st w l H k0 io go :
  inits st !! k0 = Some (merge l) →
  heap w !! l = Some H →
  (∀ k i, inits st !! k = Some i → k ≠ k0 →
          ∀ w', heap (i w') !! l = heap w' !! l) →
  (∀ n f, gauges st !! n = Some f →
          ∀ w', heap (f w').2 !! l = heap w' !! l) →
  io ≡ₚ map_to_list (inits st) →
  go ≡ₚ map_to_list (gauges st) →
  heap (after (Gauges_in io go w)) !! l = Some (Histogram_merge H) ∧
  ∀ n q, gauges st !! n = Some (valueAt l q) →
         values (Gauges_in io go w) !! n
         = Some (float64_of_int64
                   (hdr.ValueAtQuantile (hdr.Merge (hist H)) q)).
Proof.
  intros Hk0 Hl Hinits Hgauges Hio Hgo.
  destruct (Gauges_in_establishes
              (λ w', heap w' !! l = Some H)
              (λ _ w', heap w' !! l = Some (Histogram_merge H))
              st io go w k0 (merge l) Hio Hgo Hk0 Hl)
    as (wr & _ & Hafter & Hvalues).
  - intros w' Hw'. by apply merge_hstep.
  - intros k i Hk Hne. split.
    + intros w' Hw'. by rewrite (Hinits k i Hk Hne).
    + intros _ w' Hw'. by rewrite (Hinits k i Hk Hne).
  - intros n f Hf _ w' Hw'. by rewrite (Hgauges n f Hf).
  - split; [done|]. intros n q Hn.
    destruct (Hvalues n _ Hn) as (wn & Hwn & ->).
    by rewrite (valueAt_closure l q wn _ Hwn).
Qed.

Lemma NewHistogram_world name lo hi sf st l st' :
  NewHistogram name lo hi sf st = Ok (l, st') →
  l = fresh (dom (heap (world st))) ∧
  histograms st' = <[name := l]> (histograms st) ∧
  world st'
  = mkWorld (<[l := newHist lo hi sf]> (heap (world st))) (user (world st)).
Proof.
  intros (_ & Hl & Hst')%NewHistogram_Ok_inv.
  apply (batch_frame _ _ (valueAt l)) in Hst' as (_ & -> & ->). done.
Qed.

(** X8: histograms do not alias: two [NewHistogram] calls return
    different handles, the second leaves the first histogram as it is, and
    recording through one handle does not change the histogram behind the
    other. *)
Theorem histograms_do_not_alias n1 n2 lo1 hi1 sf1 lo2 hi2 sf2 st l1 st1 l2 st2 v :
  NewHistogram n1 lo1 hi1 sf1 st = Ok (l1, st1) →
  NewHistogram n2 lo2 hi2 sf2 st1 = Ok (l2, st2) →
  l1 ≠ l2 ∧
  heap (world st2) !! l1 = Some (newHist lo1 hi1 sf1) ∧
  heap (RecordValue l2 v (world st2)).2 !! l1 = Some (newHist lo1 hi1 sf1) ∧
  heap (RecordValue l1 v (world st2)).2 !! l2 = Some (newHist lo2 hi2 sf2).
Proof.
  intros (_ & _ & Hw1)%NewHistogram_world (Hl2 & _ & Hw2)%NewHistogram_world.
  assert (l1 ≠ l2) as Hne.
  { intros <-. pose proof (is_fresh (dom (heap (world st1)))) as Hfresh.
    rewrite <- Hl2 in Hfresh. apply Hfresh.
    rewrite Hw1. simpl. rewrite dom_insert_L. set_solver. }
  assert (heap (world st2) !! l1 = Some (newHist lo1 hi1 sf1)) as H1.
  { rewrite Hw2. simpl. rewrite lookup_insert_ne by done.
    rewrite Hw1. simpl. by rewrite lookup_insert_eq. }
  assert (heap (world st2) !! l2 = Some (newHist lo2 hi2 sf2)) as H2.
  { rewrite Hw2. simpl. by rewrite lookup_insert_eq. }
  split; [done|]. split; [done|]. split.
  - by rewrite RecordValue_other.
  - by rewrite RecordValue_other.
Qed.

(** X9: a tick of the rotation goroutine rotates each registered
    histogram once and touches nothing else: a histogram that is not in
    the map, such as one made before a [Reset], is never rotated again;
    the maps, the caller's variables and every merged snapshot stay as
    they are. *)
Theorem tick_rotates_registered_histograms st :
  (∀ l, (∀ n, histograms st !! n ≠ Some l) →
        heap (world (tick st)) !! l = heap (world st) !! l) ∧
  (∀ n l, histograms st !! n = Some l →
          (∀ n', histograms st !! n' = Some l → n' = n) →
          heap (world (tick st)) !! l
          = Histogram_rotate <$> heap (world st) !! l) ∧
  user (world (tick st)) = user (world st) ∧
  counters (tick st) = counters st ∧ gauges (tick st) = gauges st ∧
  inits (tick st) = inits st ∧ histograms (tick st) = histograms st ∧
  tick (Reset st) = Reset st.
Proof.
  split; [|split; [|split; [apply rotations_user|]]].
  - intros l Hno. simpl. apply rotations_other.
    intros ([n l'] & -> & Hin%elem_of_map_to_list)%list_elem_of_fmap.
    by apply (Hno n).
  - intros n l Hn Hinj. simpl.
    pose proof (NoDup_fst_map_to_list (histograms st)) as Hnd.
    assert ((n, l) ∈ map_to_list (histograms st)) as Hin
      by by apply elem_of_map_to_list.
    assert (∀ e, e ∈ map_to_list (histograms st) → e.2 = l → e.1 = n) as Hone.
    { intros [n' l'] He%elem_of_map_to_list Hl'. simpl in *. subst l'.
      by apply Hinj. }
    revert Hnd Hin Hone. generalize (map_to_list (histograms st)).
    intros es Hnd Hin Hone.
    apply list_elem_of_split in Hin as (pre & post & ->).
    rewrite fmap_app, fmap_cons in Hnd. simpl in Hnd.
    apply NoDup_app in Hnd as (_ & Hpre & Hnd).
    apply NoDup_cons in Hnd as [Hpost _].
    rewrite foldl_app. simpl. rewrite rotations_other.
    + rewrite rotate_lookup, decide_True by done.
      rewrite rotations_other; [done|].
      intros ([n' l'] & Hl' & He)%list_elem_of_fmap. simpl in Hl'.
      apply (Hpre n); [|left]. apply list_elem_of_fmap. exists (n', l').
      split; [|done]. simpl. symmetry. apply (Hone (n', l')); [|done].
      apply elem_of_app. by left.
    + intros ([n' l'] & Hl' & He)%list_elem_of_fmap. simpl in Hl'.
      apply Hpost. apply list_elem_of_fmap. exists (n', l').
      split; [|done]. simpl. symmetry. apply (Hone (n', l')); [|done].
      apply elem_of_app. right. by right.
  - by repeat split.
Qed.

Lemma step_histograms_keep op st st' n l :
  step op st st' → op ≠ OpReset →
  histograms st !! n = Some l → histograms st' !! n = Some l.
Proof.
  destruct 1 as [| | | | | | | name lo hi sf st l' st' Hnew | |];
    intros Hop Hn; try done.
  pose proof Hnew as (Hfree & _)%NewHistogram_Ok_inv.
  apply NewHistogram_world in Hnew as (_ & -> & _).
  rewrite lookup_insert_ne; [done|]. congruence.
Qed.

Lemma steps_histograms_keep ops st st' n l :
  steps ops st st' → OpReset ∉ ops →
  histograms st !! n = Some l → histograms st' !! n = Some l.
Proof.
  induction 1 as [|op ops st1 st2 st3 Hstep Hsteps IH]; [done|].
  intros [Hop Hreset]%not_elem_of_cons Hn.
  apply IH; [done|]. eapply step_histograms_keep; eauto.
Qed.

(** X10: the name of a histogram stays taken until [Reset]: after a
    [NewHistogram(name, ...)] that returned, and any calls other than
    [Reset], every [NewHistogram] of that name panics, whatever its range
    and precision; after a [Reset] the name is free again. *)
Theorem histogram_name_taken_until_Reset name lo hi sf st l st1 ops st2 :
  NewHistogram name lo hi sf st = Ok (l, st1) →
  steps ops st1 st2 →
  OpReset ∉ ops →
  (∀ lo' hi' sf',
     NewHistogram name lo' hi' sf' st2 = Panic (name +:+ " already exists")) ∧
  (∀ lo' hi' sf', ∃ l' st',
     NewHistogram name lo' hi' sf' (Reset st2) = Ok (l', st')).
Proof.
  intros (_ & Hh & _)%NewHistogram_world Hsteps Hreset.
  assert (histograms st2 !! name = Some l) as Hn.
  { eapply steps_histograms_keep; eauto. rewrite Hh.
    by rewrite lookup_insert_eq. }
  split; intros lo' hi' sf'.
  - rewrite NewHistogram_unfold. by rewrite Hn.
  - rewrite NewHistogram_unfold. simpl. rewrite lookup_empty. eauto.
Qed.

End histograms_more.

(** * The older variant: snapshots with the quantiles computed in place *)

Section legacy_snapshots.
Context {F64 : Float64} {QZ : Quantizer} {U : Type}.
Implicit Types (lst : legacy.State U) (lw : legacy.World U).
Implicit Types (go : list (string * (legacy.World U → float64 * legacy.World U))).
Implicit Types (ho : list (string * loc)) (n : string) (l : loc).
Implicit Types (g : gmap string float64).

Lemma list_ascii_of_string_app (a b : string) :
  String.list_ascii_of_string (a +:+ b)
  = String.list_ascii_of_string a ++ String.list_ascii_of_string b.
Proof. induction a as [|c a IH]; simpl; [done|]. by rewrite IH. Qed.

Lemma list_ascii_of_string_inj (a b : string) :
  String.list_ascii_of_string a = String.list_ascii_of_string b → a = b.
Proof.
  intros Heq. rewrite <- (String.string_of_list_ascii_of_string a), Heq.
  apply String.string_of_list_ascii_of_string.
Qed.

(** A quantile gauge name belongs to one histogram and one quantile. *)
Lemma quantile_name_inj n n' s s' :
  s ∈ quantile_suffixes → s' ∈ quantile_suffixes →
  n +:+ s = n' +:+ s' → n = n' ∧ s = s'.
Proof.
  intros Hs Hs' Heq.
  apply (f_equal String.list_ascii_of_string) in Heq.
  rewrite !list_ascii_of_string_app in Heq.
  apply (f_equal reverse) in Heq. rewrite !reverse_app in Heq.
  unfold quantile_suffixes in Hs, Hs'.
  repeat (apply elem_of_cons in Hs as [->|Hs]);
    try (by apply elem_of_nil in Hs);
    repeat (apply elem_of_cons in Hs' as [->|Hs']);
    try (by apply elem_of_nil in Hs');
    cbn in Heq; simplify_eq;
    (split; [by apply list_ascii_of_string_inj|done]).
Qed.

(** A run of map assignments [g[k] = v]. *)
Lemma assign_other {V} (kvs : list (string * V)) (g0 : gmap string V) k :
  k ∉ kvs.*1 → foldl (λ c e, <[e.1 := e.2]> c) g0 kvs !! k = g0 !! k.
Proof.
  revert g0. induction kvs as [|[k' v] kvs IH]; intros g0 Hk; [done|].
  apply not_elem_of_cons in Hk as [Hne Hk]. simpl.
  rewrite IH by done. by rewrite lookup_insert_ne.
Qed.

Lemma assign_elem {V} (kvs : list (string * V)) (g0 : gmap string V) k v :
  NoDup kvs.*1 → (k, v) ∈ kvs →
  foldl (λ c e, <[e.1 := e.2]> c) g0 kvs !! k = Some v.
Proof.
  revert g0. induction kvs as [|[k' v'] kvs IH]; intros g0 Hnd Hin.
  { by apply elem_of_nil in Hin. }
  rewrite fmap_cons in Hnd. apply NoDup_cons in Hnd as [Hnot Hnd].
  simpl. apply elem_of_cons in Hin as [[= -> ->]|Hin].
  - rewrite assign_other by done. by rewrite lookup_insert_eq.
  - by apply IH.
Qed.

Lemma assign_dom {V} (kvs : list (string * V)) (g0 : gmap string V) :
  dom (foldl (λ c e, <[e.1 := e.2]> c) g0 kvs) = dom g0 ∪ list_to_set kvs.*1.
Proof.
  revert g0. induction kvs as [|[k v] kvs IH]; intros g0; simpl.
  - by rewrite (right_id_L ∅ (∪)).
  - rewrite IH, dom_insert_L. simpl.
    by rewrite (comm_L (∪) {[k]} (dom g0)), (assoc_L (∪)).
Qed.

Lemma assign_size {V} (kvs : list (string * V)) (g0 : gmap string V) :
  (size (foldl (λ c e, <[e.1 := e.2]> c) g0 kvs) ≤ size g0 + length kvs)%nat.
Proof.
  revert g0. induction kvs as [|[k v] kvs IH]; intros g0; simpl; [lia|].
  etrans; [apply IH|]. rewrite map_size_insert.
  destruct (g0 !! k); simpl; lia.
Qed.

Lemma quantile_assignments_fst n md :
  (quantile_assignments n md).*1 = quantile_names n.
Proof. reflexivity. Qed.

Lemma eval_histograms_cons n l ho g lw :
  legacy.eval_histograms ((n, l) :: ho) (g, lw)
  = legacy.eval_histograms ho
      (match legacy.heap lw !! l with
       | Some h =>
           foldl (λ c e, <[e.1 := e.2]> c) g
                 (quantile_assignments n (legacy.Histogram_merge h))
       | None => g
       end, lw).
Proof.
  unfold legacy.eval_histograms at 1. simpl.
  by destruct (legacy.heap lw !! l).
Qed.

Lemma eval_histograms_world ho g lw :
  (legacy.eval_histograms ho (g, lw)).2 = lw.
Proof.
  revert g. induction ho as [|[n l] ho IH]; intros g; [done|].
  by rewrite eval_histograms_cons, IH.
Qed.

Lemma eval_histograms_other ho g lw k :
  (∀ n, n ∈ ho.*1 → k ∉ quantile_names n) →
  (legacy.eval_histograms ho (g, lw)).1 !! k = g !! k.
Proof.
  revert g. induction ho as [|[n l] ho IH]; intros g Hk; [done|].
  rewrite eval_histograms_cons, IH.
  - destruct (legacy.heap lw !! l); [|done].
    rewrite assign_other; [done|]. rewrite quantile_assignments_fst.
    apply Hk. left.
  - intros n' Hn'. apply Hk. by right.
Qed.

Lemma eval_histograms_dom_lower ho g lw :
  dom g ⊆ dom (legacy.eval_histograms ho (g, lw)).1.
Proof.
  revert g. induction ho as [|[n l] ho IH]; intros g; [done|].
  rewrite eval_histograms_cons. etrans; [|apply IH].
  destruct (legacy.heap lw !! l); [|done].
  rewrite assign_dom. apply union_subseteq_l.
Qed.

Lemma eval_histograms_dom_upper ho g lw k :
  k ∈ dom (legacy.eval_histograms ho (g, lw)).1 →
  k ∈ dom g ∨ ∃ n, n ∈ ho.*1 ∧ k ∈ quantile_names n.
Proof.
  revert g. induction ho as [|[n l] ho IH]; intros g; [by left|].
  rewrite eval_histograms_cons. intros [Hk|(n' & Hn' & Hk)]%IH.
  - destruct (legacy.heap lw !! l); [|by left].
    rewrite assign_dom, quantile_assignments_fst in Hk.
    apply elem_of_union in Hk as [Hk|Hk%elem_of_list_to_set]; [by left|].
    right. exists n. split; [left|done].
  - right. exists n'. split; [by right|done].
Qed.

Lemma eval_histograms_size ho g lw :
  (size (legacy.eval_histograms ho (g, lw)).1 ≤ size g + 6 * length ho)%nat.
Proof.
  revert g. induction ho as [|[n l] ho IH]; intros g; simpl length; [simpl; lia|].
  rewrite eval_histograms_cons. etrans; [apply IH|].
  destruct (legacy.heap lw !! l); [|lia].
  pose proof (assign_size
    (quantile_assignments n (legacy.Histogram_merge h)) g) as Hsz.
  change (length (quantile_assignments n (legacy.Histogram_merge h))) with 6%nat in Hsz.
  lia.
Qed.

Lemma legacy_eval_gauges_cons n f go g lw :
  legacy.eval_gauges ((n, f) :: go) (g, lw)
  = legacy.eval_gauges go (<[n := (f lw).1]> g, (f lw).2).
Proof. simpl. by destruct (f lw). Qed.

Lemma legacy_eval_gauges_dom go g lw :
  dom (legacy.eval_gauges go (g, lw)).1 = dom g ∪ list_to_set go.*1.
Proof.
  revert g lw. induction go as [|[n f] go IH]; intros g lw.
  - simpl. by rewrite (right_id_L ∅ (∪)).
  - rewrite legacy_eval_gauges_cons, IH, dom_insert_L. simpl.
    by rewrite (comm_L (∪) {[n]} (dom g)), (assoc_L (∪)).
Qed.

Lemma legacy_eval_gauges_size go g lw :
  (size (legacy.eval_gauges go (g, lw)).1 ≤ size g + length go)%nat.
Proof.
  revert g lw. induction go as [|[n f] go IH]; intros g lw; simpl length.
  - simpl. lia.
  - rewrite legacy_eval_gauges_cons. etrans; [apply IH|].
    rewrite map_size_insert. destruct (g !! n); simpl; lia.
Qed.

(** X11: the keys of a snapshot of the older variant: every gauge name is
    a key; every key is a gauge name or a quantile name of a registered
    histogram; and the capacity that [Gauges()] reserves,
    [len(gauges) + len(histograms)*6], is an upper bound on the size of
    the snapshot. *)
Theorem legacy_snapshot_keys lst go ho lw :
  go ≡ₚ map_to_list (legacy.gauges lst) →
  ho ≡ₚ map_to_list (legacy.histograms lst) →
  let g := (legacy.Gauges_in go ho lw).1 in
  dom (legacy.gauges lst) ⊆ dom g ∧
  (∀ k, k ∈ dom g →
        k ∈ dom (legacy.gauges lst) ∨
        ∃ n, is_Some (legacy.histograms lst !! n) ∧ k ∈ quantile_names n) ∧
  (size g ≤ size (legacy.gauges lst) + 6 * size (legacy.histograms lst))%nat.
Proof.
  intros Hgo Hho g. subst g. unfold legacy.Gauges_in.
  destruct (legacy.eval_gauges go (∅, lw)) as [g1 w1] eqn:Hg1.
  assert (dom g1 = dom (legacy.gauges lst)) as Hdom1.
  { replace g1 with (legacy.eval_gauges go (∅, lw)).1 by by rewrite Hg1.
    rewrite legacy_eval_gauges_dom, dom_empty_L, (left_id_L ∅ (∪)).
    apply set_eq. intros k. rewrite elem_of_list_to_set, elem_of_dom.
    by apply entries_keys. }
  split; [|split].
  - rewrite <- Hdom1. apply eval_histograms_dom_lower.
  - intros k [Hk|(n & Hn & Hk)]%eval_histograms_dom_upper.
    + left. by rewrite <- Hdom1.
    + right. exists n. split; [|done].
      by apply (entries_keys (legacy.histograms lst) ho).
  - etrans; [apply eval_histograms_size|].
    assert (size g1 ≤ length go)%nat as Hsz.
    { replace g1 with (legacy.eval_gauges go (∅, lw)).1 by by rewrite Hg1.
      etrans; [apply legacy_eval_gauges_size|]. rewrite map_size_empty. lia. }
    rewrite <- (length_map_to_list (legacy.gauges lst)).
    rewrite <- (length_map_to_list (legacy.histograms lst)).
    rewrite <- Hgo, <- Hho. lia.
Qed.

(** X12: in the older variant a snapshot reports, for every registered
    histogram, the six quantiles of the merge of its current bucket set and
    window under the six quantile names, whatever gauges are registered:
    a gauge that has one of these names is shadowed. *)
Theorem legacy_snapshot_reports_quantiles lst go ho lw n l h :
  go ≡ₚ map_to_list (legacy.gauges lst) →
  ho ≡ₚ map_to_list (legacy.histograms lst) →
  legacy.histograms lst !! n = Some l →
  legacy.heap (legacy.Gauges_in go ho lw).2 !! l = Some h →
  (legacy.Gauges_in go ho lw).2 = (legacy.eval_gauges go (∅, lw)).2 ∧
  ∀ s q, (s, q) ∈ zip quantile_suffixes quantiles →
         (legacy.Gauges_in go ho lw).1 !! (n +:+ s)
         = Some (float64_of_int64
                   (hdr.ValueAtQuantile (legacy.Histogram_merge h) q)).
Proof.
  intros Hgo Hho Hn. unfold legacy.Gauges_in.
  destruct (legacy.eval_gauges go (∅, lw)) as [g1 w1].
  rewrite eval_histograms_world. simpl. intros Hl. split; [done|].
  intros s q Hsq.
  assert (NoDup ho.*1) as Hnd.
  { rewrite Hho. apply NoDup_fst_map_to_list. }
  assert ((n, l) ∈ ho) as Hin.
  { rewrite Hho. by apply elem_of_map_to_list. }
  apply list_elem_of_split in Hin as (pre & post & ->).
  rewrite fmap_app, fmap_cons in Hnd. simpl in Hnd.
  apply NoDup_app in Hnd as (_ & _ & Hnd).
  apply NoDup_cons in Hnd as [Hpost _].
  assert (s ∈ quantile_suffixes) as Hs.
  { change quantile_suffixes with (zip quantile_suffixes quantiles).*1.
    apply list_elem_of_fmap. by exists (s, q). }
  unfold legacy.eval_histograms. rewrite foldl_app.
  fold (legacy.eval_histograms pre (g1, w1)).
  fold (legacy.eval_histograms ((n, l) :: post)
          (legacy.eval_histograms pre (g1, w1))).
  destruct (legacy.eval_histograms pre (g1, w1)) as [g2 w2] eqn:Hpre.
  assert (w2 = w1) as ->.
  { replace w2 with (legacy.eval_histograms pre (g1, w1)).2 by by rewrite Hpre.
    apply eval_histograms_world. }
  rewrite eval_histograms_cons, Hl, eval_histograms_other.
  - apply assign_elem.
    + rewrite quantile_assignments_fst. apply quantile_names_NoDup.
    + unfold quantile_assignments. apply list_elem_of_fmap. by exists (s, q).
  - intros n' Hn' Hk.
    change (quantile_names n')
      with ((λ s, n' +:+ s) <$> quantile_suffixes) in Hk.
    apply list_elem_of_fmap in Hk as (s' & Heq & Hs').
    apply quantile_name_inj in Heq as [<- _]; done.
Qed.

End legacy_snapshots.

(** * The two variants agree on histograms *)

Section variants.
Context {F64 : Float64} {QZ : Quantizer}.
Implicit Types (H : Histogram) (h : legacy.Histogram) (ops : list HOp).

Lemma hstep_same_hist H h op :
  hist H = legacy.hist h →
  hist (hstep H op) = legacy.hist (legacy_hstep h op).
Proof.
  intros Heq. destruct op as [v| |]; simpl.
  - unfold Histogram_RecordValue. rewrite Heq.
    by destruct (hdr.RecordValue v _).
  - by rewrite Heq.
  - done.
Qed.

Lemma hrun_same_hist ops H h :
  hist H = legacy.hist h →
  hist (hrun ops H) = legacy.hist (legacy_hrun ops h).
Proof.
  revert H h. induction ops as [|op ops IH]; intros H h Heq; [done|].
  simpl. by apply IH, hstep_same_hist.
Qed.

(** X13: the two variants of the package report the same quantiles:
    after the same records and rotations on a histogram of the same range
    and precision, what a quantile gauge returns once the snapshot has run
    the merge is what the older [Gauges()] computes in place, wherever the
    earlier merges fell. *)
Theorem variants_report_same_quantiles lo hi sf ops q :
  Histogram_valueAt q (Histogram_merge (hrun ops (newHist lo hi sf)))
  = float64_of_int64
      (hdr.ValueAtQuantile
         (legacy.Histogram_merge (legacy_hrun ops (legacy.newHist lo hi sf)))
         q).
Proof.
  unfold Histogram_valueAt, legacy.Histogram_merge. simpl.
  by rewrite (hrun_same_hist ops (newHist lo hi sf) (legacy.newHist lo hi sf)).
Qed.

End variants.

(** * Memory statistics *)

Section memory_statistics.
Context {F64 : Float64} {QZ : Quantizer} {FU : Float64OfUint} {R : Type}.
Variable ReadMemStats : R → gc.MemStats.
Implicit Types (st : State (gc.Vars R)) (w : World (gc.Vars R)).

Lemma gc_init_inits st k i :
  inits (gc.init ReadMemStats st) !! k = Some i →
  inits st !! k = Some i
  ∨ (k = KString "Mem" ∧ i = gc.memStatGauges_init ReadMemStats).
Proof.
  unfold gc.init. cbv zeta. intros Hk.
  do 5 (apply SetBatchFunc_inits_origin in Hk as [Hk|[<- <-]]; [|by right]).
  by left.
Qed.

Lemma gc_init_registered st :
  inits st !! KString "Mem" = None →
  inits (gc.init ReadMemStats st) !! KString "Mem"
  = Some (gc.memStatGauges_init ReadMemStats).
Proof.
  intros Hfree. unfold gc.init.
  do 4 apply SetBatchFunc_inits_keep.
  simpl. rewrite Hfree. by rewrite lookup_insert_eq.
Qed.

Lemma gc_init_gauges st n f :
  gauges (gc.init ReadMemStats st) !! n = Some f →
  (n, f) ∈ gc.mem_gauges ∨ gauges st !! n = Some f.
Proof.
  unfold gc.init, gc.mem_gauges. simpl. rewrite !lookup_insert.
  repeat case_decide; try (by right); intros [= <-]; subst n; left;
    repeat first [by left | right].
Qed.

Lemma gc_init_gauge n f st :
  (n, f) ∈ gc.mem_gauges →
  gauges (gc.init ReadMemStats st) !! n = Some f.
Proof.
  unfold gc.mem_gauges. intros Hin.
  repeat (apply elem_of_cons in Hin as [[= -> ->]|Hin]);
    try (by apply elem_of_nil in Hin);
    unfold gc.init; simpl;
    repeat (rewrite lookup_insert_ne by done); by rewrite lookup_insert_eq.
Qed.

(** X14: one reading backs the five memory gauges: when the batch key
    "Mem" is free at [init] and nothing else writes [msg.stats], a snapshot
    calls [msg.init] once and reports under the five names the five fields
    of that one reading of the runtime's statistics; "Mem.GC.LastPauseTime"
    is the field [LastGC]. *)
Theorem memory_gauges_share_one_reading st w io go :
  inits st !! KString "Mem" = None →
  (∀ k i, inits st !! k = Some i →
          ∀ w', gc.stats (user (i w')) = gc.stats (user w')) →
  (∀ n f, gauges st !! n = Some f →
          ∀ w', gc.stats (user (f w').2) = gc.stats (user w')) →
  io ≡ₚ map_to_list (inits (gc.init ReadMemStats st)) →
  go ≡ₚ map_to_list (gauges (gc.init ReadMemStats st)) →
  let s := Gauges_in io go w in
  length (filter (λ k', k' = KString "Mem") (called s)) = 1%nat ∧
  ∃ wr, let reading := ReadMemStats (gc.rt (user wr)) in
    values s !! "Mem.GC.Runs"
      = Some (float64_of_uint64 (gc.NumGC reading)) ∧
    values s !! "Mem.GC.TotalPauseTime"
      = Some (float64_of_uint64 (gc.PauseTotalNs reading)) ∧
    values s !! "Mem.GC.LastPauseTime"
      = Some (float64_of_uint64 (gc.LastGC reading)) ∧
    values s !! "Mem.Alloc"
      = Some (float64_of_uint64 (gc.Alloc reading)) ∧
    values s !! "Mem.Objects"
      = Some (float64_of_uint64 (gc.HeapObjects reading)).
Proof.
  intros Hfree Hinits Hgauges Hio Hgo s.
  pose proof (gc_init_registered st Hfree) as Hmem.
  split.
  { apply (Gauges_in_called (gc.init ReadMemStats st)); [done|].
    by rewrite Hmem. }
  destruct (Gauges_in_establishes
              (λ _, True)
              (λ wr w', gc.stats (user w') = ReadMemStats (gc.rt (user wr)))
              (gc.init ReadMemStats st) io go w (KString "Mem")
              (gc.memStatGauges_init ReadMemStats) Hio Hgo Hmem I)
    as (wr & _ & _ & Hvalues).
  - done.
  - intros k i [Hk|[-> _]]%gc_init_inits Hne; [|done].
    split; [done|]. intros wr w' Hw'. by rewrite (Hinits k i Hk).
  - intros n f [Hin|Hf]%gc_init_gauges wr w' Hw'.
    + unfold gc.mem_gauges in Hin.
      repeat (apply elem_of_cons in Hin as [[= -> ->]|Hin]); try done.
      by apply elem_of_nil in Hin.
    + by rewrite (Hgauges n f Hf).
  - exists wr. cbv zeta.
    assert (∀ n (f : GaugeFunc (gc.Vars R)), (n, f) ∈ gc.mem_gauges →
              ∃ wn, gc.stats (user wn) = ReadMemStats (gc.rt (user wr)) ∧
                    values s !! n = Some (f wn).1) as Hmemv.
    { intros n f Hin. apply Hvalues. by apply gc_init_gauge. }
    unfold gc.mem_gauges in Hmemv.
    repeat split.
    + destruct (Hmemv _ _ ltac:(left)) as (wn & Hwn & ->).
      simpl. by rewrite Hwn.
    + destruct (Hmemv _ _ ltac:(right; left)) as (wn & Hwn & ->).
      simpl. by rewrite Hwn.
    + destruct (Hmemv _ _ ltac:(right; right; left)) as (wn & Hwn & ->).
      simpl. by rewrite Hwn.
    + destruct (Hmemv _ _ ltac:(right; right; right; left))
        as (wn & Hwn & ->).
      simpl. by rewrite Hwn.
    + destruct (Hmemv _ _ ltac:(right; right; right; right; left))
        as (wn & Hwn & ->).
      simpl. by rewrite Hwn.
Qed.

End memory_statistics.

(** * The registry that [NewHistogram] makes of an empty one *)

Section first_histogram.
Context {F64 : Float64} {QZ : Quantizer} {U : Type}.
Implicit Types (st : State U) (w : World U) (l : loc).

Lemma batch_gauges_origin key (init : InitFunc U) (fq : Q → GaugeFunc U)
    (nqs : list (string * Q)) st n f :
  gauges (foldl (λ st nq, Gauge_SetBatchFunc nq.1 key init (fq nq.2) st) st nqs)
    !! n = Some f →
  gauges st !! n = Some f ∨ ∃ q, f = fq q.
Proof.
  revert st. induction nqs as [|nq nqs IH]; intros st; [by left|].
  simpl. intros [Hn|Hn]%IH; [|by right].
  simpl in Hn. rewrite lookup_insert in Hn. case_decide; [|by left].
  right. exists nq.2. congruence.
Qed.

Lemma NewHistogram_initial name lo hi sf w l st1 :
  NewHistogram name lo hi sf (initial w) = Ok (l, st1) →
  (∀ k i, inits st1 !! k = Some i → k = KString name ∧ i = merge l) ∧
  (∀ n f, gauges st1 !! n = Some f → ∃ q, f = valueAt l q).
Proof.
  intros (_ & _ & <-)%NewHistogram_Ok_inv. split.
  - intros k i [Hk|[<- <-]]%(batch_inits_origin _ _ (valueAt l)); [|done].
    simpl in Hk. by rewrite lookup_empty in Hk.
  - intros n f [Hn|Hn]%(batch_gauges_origin _ _ (valueAt l)); [|done].
    simpl in Hn. by rewrite lookup_empty in Hn.
Qed.

End first_histogram.

(** * The further theorems at work on concrete registries *)

Section concrete_more.
Import examples.
#[local] Existing Instance exact_float64.
#[local] Existing Instance unit_resolution.
#[local] Existing Instance ex_uint.

Local Ltac in_uint64 := unfold is_uint64, uint64_modulus; lia.

Local Ltac not_in_list :=
  let Hin := fresh "Hin" in
  intros Hin;
  repeat (apply elem_of_cons in Hin as [Hin|Hin]; [discriminate Hin|]);
  by apply elem_of_nil in Hin.

Lemma Set_then_snapshot_witness :
  let st := Gauge_Set "whee" 100 ex_batch in
  let io := map_to_list (inits st) in
  let go := map_to_list (gauges st) in
  io ≡ₚ map_to_list (inits st) ∧ go ≡ₚ map_to_list (gauges st) ∧
  values (Gauges_in io go ex_world) !! "whee" = Some 100.
Proof.
  intros st io go. split; [reflexivity|]. split; [reflexivity|].
  apply (Set_then_snapshot ex_batch "whee" 100 ex_world io go);
    reflexivity.
Defined.

Lemma initializer_outlives_its_gauges_witness :
  let st := Gauge_SetBatchFunc "a" (KString "K") ex_bump ex_read ex_empty in
  let io := map_to_list (inits ex_replaced) in
  let go := map_to_list (gauges ex_replaced) in
  inits st !! KString "K" = Some ex_bump ∧
  steps [OpSet "a" 5] st ex_replaced ∧
  (OpReset ∉ [OpSet (U := nat) "a" 5]) ∧
  length (filter (λ k', k' = KString "K") (called (Gauges_in io go ex_world)))
  = 1%nat.
Proof.
  intros st io go.
  assert (steps [OpSet "a" 5] st ex_replaced) as Hsteps.
  { eapply steps_cons; [apply step_Set|apply steps_nil]. }
  assert (OpReset ∉ [OpSet (U := nat) "a" 5]) as Hreset by not_in_list.
  split; [reflexivity|]. split; [exact Hsteps|]. split; [exact Hreset|].
  apply (initializer_outlives_its_gauges st _ ex_replaced
           (KString "K") ex_bump ex_world io go eq_refl Hsteps Hreset
           (reflexivity _) (reflexivity _)).
Defined.

Lemma counter_changes_only_by_its_AddN_witness :
  let ops := [OpAddN (U := nat) "d" 3; OpAddN "c" 0; OpSet "g" 1] in
  steps ops (Counter_AddN "c" 0 ex_empty) ex_later ∧
  (OpReset ∉ ops) ∧
  Counters ex_later !! "e" = Counters (Counter_AddN "c" 0 ex_empty) !! "e".
Proof.
  intros ops.
  assert (steps ops (Counter_AddN "c" 0 ex_empty) ex_later) as Hsteps.
  { eapply steps_cons; [apply step_AddN; in_uint64|].
    eapply steps_cons; [apply step_AddN; in_uint64|].
    eapply steps_cons; [apply step_Set|apply steps_nil]. }
  assert (OpReset ∉ ops) as Hreset by (subst ops; not_in_list).
  assert (∀ delta, OpAddN "e" delta ∉ ops) as Hadd.
  { intros delta. subst ops. not_in_list. }
  split; [exact Hsteps|]. split; [exact Hreset|].
  apply (counter_changes_only_by_its_AddN _ ops ex_later "e"
           Hsteps Hreset Hadd).
Defined.

Lemma snapshot_reports_current_quantiles_witness :
  let io := map_to_list (inits ex_heyo) in
  let go := map_to_list (gauges ex_heyo) in
  inits ex_heyo !! KString "heyo" = Some (merge 1%positive) ∧
  heap (world ex_triangle) !! 1%positive = Some ex_triangle_hist ∧
  values (Gauges_in io go (world ex_triangle)) !! "heyo.P50"
  = Some (float64_of_int64
            (hdr.ValueAtQuantile (hdr.Merge (hist ex_triangle_hist)) 50)).
Proof.
  intros io go.
  assert (NewHistogram "heyo" 1 1000 3 ex_empty = Ok (1%positive, ex_heyo))
    as Hnew by reflexivity.
  destruct (NewHistogram_initial _ _ _ _ _ _ _ Hnew) as [Hinits Hgauges].
  assert (inits ex_heyo !! KString "heyo" = Some (merge 1%positive))
    as Hk0 by reflexivity.
  assert (heap (world ex_triangle) !! 1%positive = Some ex_triangle_hist)
    as Hl by (vm_compute; reflexivity).
  assert (∀ k i, inits ex_heyo !! k = Some i → k ≠ KString "heyo" →
            ∀ w', heap (i w') !! 1%positive = heap w' !! 1%positive)
    as Hframe1.
  { intros k i Hk Hne. destruct (Hinits k i Hk) as [Heq _]. contradiction. }
  assert (∀ n f, gauges ex_heyo !! n = Some f →
            ∀ w', heap (f w').2 !! 1%positive = heap w' !! 1%positive)
    as Hframe2.
  { intros n f Hf w'. destruct (Hgauges n f Hf) as [q ->]. reflexivity. }
  split; [exact Hk0|]. split; [exact Hl|].
  destruct (snapshot_reports_current_quantiles ex_heyo (world ex_triangle)
              1%positive ex_triangle_hist (KString "heyo") io go Hk0 Hl
              Hframe1 Hframe2 (reflexivity _) (reflexivity _))
    as [_ Hvalue].
  exact (Hvalue "heyo.P50" 50%Q eq_refl).
Defined.

Lemma histograms_do_not_alias_witness :
  NewHistogram "a" 1 10 1 ex_empty = Ok (1%positive, ex_a) ∧
  NewHistogram "b" 1 20 2 ex_a = Ok (2%positive, ex_ab) ∧
  heap (RecordValue 2%positive 5 (world ex_ab)).2 !! 1%positive
  = Some (newHist 1 10 1).
Proof.
  assert (NewHistogram "a" 1 10 1 ex_empty = Ok (1%positive, ex_a))
    as Ha by reflexivity.
  assert (NewHistogram "b" 1 20 2 ex_a = Ok (2%positive, ex_ab))
    as Hb by reflexivity.
  split; [exact Ha|]. split; [exact Hb|].
  apply (histograms_do_not_alias "a" "b" 1 10 1 1 20 2 ex_empty
           1%positive ex_a 2%positive ex_ab 5 Ha Hb).
Defined.

Lemma histogram_name_taken_until_Reset_witness :
  NewHistogram "heyo" 1 1000 3 ex_empty = Ok (1%positive, ex_heyo) ∧
  steps [OpAddN "c" 1] ex_heyo (Counter_AddN "c" 1 ex_heyo) ∧
  (OpReset ∉ [OpAddN (U := nat) "c" 1]) ∧
  NewHistogram "heyo" 5 50 2 (Counter_AddN "c" 1 ex_heyo)
  = Panic "heyo already exists".
Proof.
  assert (NewHistogram "heyo" 1 1000 3 ex_empty = Ok (1%positive, ex_heyo))
    as Hnew by reflexivity.
  assert (steps [OpAddN "c" 1] ex_heyo (Counter_AddN "c" 1 ex_heyo)) as Hsteps.
  { eapply steps_cons; [apply step_AddN; in_uint64|apply steps_nil]. }
  assert (OpReset ∉ [OpAddN (U := nat) "c" 1]) as Hreset by not_in_list.
  split; [exact Hnew|]. split; [exact Hsteps|]. split; [exact Hreset|].
  apply (histogram_name_taken_until_Reset "heyo" 1 1000 3 ex_empty 1%positive
           ex_heyo [OpAddN "c" 1] (Counter_AddN "c" 1 ex_heyo)
           Hnew Hsteps Hreset).
Defined.

Lemma legacy_snapshot_keys_witness :
  let go := map_to_list (legacy.gauges ex_legacy) in
  let ho := map_to_list (legacy.histograms ex_legacy) in
  go ≡ₚ map_to_list (legacy.gauges ex_legacy) ∧
  ho ≡ₚ map_to_list (legacy.histograms ex_legacy) ∧
  (size (legacy.Gauges_in go ho (legacy.world ex_legacy)).1
   ≤ size (legacy.gauges ex_legacy) + 6 * size (legacy.histograms ex_legacy))%nat.
Proof.
  intros go ho. split; [reflexivity|]. split; [reflexivity|].
  apply (legacy_snapshot_keys ex_legacy go ho (legacy.world ex_legacy)
           (reflexivity _) (reflexivity _)).
Defined.

Lemma legacy_snapshot_reports_quantiles_witness :
  let go := map_to_list (legacy.gauges ex_legacy) in
  let ho := map_to_list (legacy.histograms ex_legacy) in
  legacy.histograms ex_legacy !! "heyo" = Some 1%positive ∧
  legacy.heap (legacy.Gauges_in go ho (legacy.world ex_legacy)).2 !! 1%positive
  = Some ex_legacy_hist ∧
  (legacy.Gauges_in go ho (legacy.world ex_legacy)).1 !! "heyo.P50"
  = Some (float64_of_int64
            (hdr.ValueAtQuantile (legacy.Histogram_merge ex_legacy_hist) 50)).
Proof.
  intros go ho.
  assert (legacy.heap (legacy.Gauges_in go ho (legacy.world ex_legacy)).2
            !! 1%positive = Some ex_legacy_hist) as Hl
    by (vm_compute; reflexivity).
  split; [reflexivity|]. split; [exact Hl|].
  destruct (legacy_snapshot_reports_quantiles ex_legacy go ho
              (legacy.world ex_legacy) "heyo" 1%positive ex_legacy_hist
              (reflexivity _) (reflexivity _) eq_refl Hl) as [_ Hvalue].
  apply (Hvalue ".P50" 50%Q). left.
Defined.

Lemma memory_gauges_share_one_reading_witness :
  let io := map_to_list (inits ex_mem) in
  let go := map_to_list (gauges ex_mem) in
  inits (initial ex_mem_world) !! KString "Mem" = None ∧
  io ≡ₚ map_to_list (inits ex_mem) ∧ go ≡ₚ map_to_list (gauges ex_mem) ∧
  length (filter (λ k', k' = KString "Mem")
            (called (Gauges_in io go ex_mem_world))) = 1%nat.
Proof.
  intros io go.
  split; [reflexivity|]. split; [reflexivity|]. split; [reflexivity|].
  apply (memory_gauges_share_one_reading ex_ReadMemStats
           (initial ex_mem_world) ex_mem_world io go eq_refl).
  - intros k i Hk. simpl in Hk. by rewrite lookup_empty in Hk.
  - intros n f Hf. simpl in Hf. by rewrite lookup_empty in Hf.
  - reflexivity.
  - reflexivity.
Defined.

(** C5: the code at the failing input.  A counter is documented as
    monotonically increasing, but [counters[c] += delta] wraps around: on a
    counter that [AddN(2^64-1)] has brought to 2^64-1, [AddN(1)] leaves 0,
    which is less than the value before the call. *)
Theorem AddN_overflow_wraps_to_zero :
  steps [OpAddN "c" (2 ^ 64 - 1)] ex_empty ex_full ∧
  is_uint64 1 ∧
  Counters ex_full !! "c" = Some (2 ^ 64 - 1) ∧
  Counters (Counter_AddN "c" 1 ex_full) !! "c" = Some 0 ∧
  counter_value "c" (Counter_AddN "c" 1 ex_full) < counter_value "c" ex_full.
Proof.
  split; [|split; [in_uint64|]].
  - eapply steps_cons; [apply step_AddN; in_uint64|apply steps_nil].
  - rewrite !counter_value_eq, !Counters_eq. simpl.
    rewrite !lookup_insert_eq. simpl. rewrite lookup_empty. simpl.
    repeat split; reflexivity.
Qed.

(** The snapshots of these registries: the gauge "heyo.P50", set to 7, is
    shadowed by the median of 3, 3 and 9. *)
Example legacy_shadowed_gauge :
  let g := (legacy.Gauges ex_legacy).1 in
  g !! "g" = Some 1 ∧ g !! "heyo.P50" = Some 3 ∧ g !! "heyo.P75" = Some 9 ∧
  g !! "heyo.P999" = Some 9 ∧ size g = 7%nat.
Proof. vm_compute. repeat split; reflexivity. Qed.

Example memory_gauges :
  let g := (Gauges ex_mem).1 in
  g !! "Mem.GC.Runs" = Some 7 ∧ g !! "Mem.GC.TotalPauseTime" = Some 8 ∧
  g !! "Mem.GC.LastPauseTime" = Some 9 ∧ g !! "Mem.Alloc" = Some 10 ∧
  g !! "Mem.Objects" = Some 11 ∧ size g = 5%nat.
Proof. vm_compute. repeat split; reflexivity. Qed.

End concrete_more.
